(** * agent-ready-layer: structural extraction, contract synthesis,
      network-call normalisation and the browser session

    A shallow embedding of

    - [domParser.js]         ([parseDOM], [extractInteractiveGroups],
                              [inputTypeToSchema]),
    - [contractGenerator.js] ([inferContractName], [slug],
                              [buildSchemaFromInputs], [generateContract]
                              with its local [ensureUnique]),
    - [apiDiscovery.js]      ([inferSchemaFromBody] and the
                              [requestfinished] handler of
                              [fetchWithApiDiscovery]),
    - [browserSession.js]    ([launch], [click], [fill], [fillForm],
                              [getSnapshot], [close], [hasPage]),
    - the variant of [contractGenerator.js] that lists the discovered APIs
                             ([apiActionName], [generateContract], here
                              [generateContract_apis]),
    - [fetcher.js]           ([fetchHtmlWithChromium]),
    - [cli.js]               (the reading of [process.argv] and the dispatch
                              of [main]),
    - [agent.js]             ([runAgentTurn]).

    Left out: [navigate] (its waits are not among the operations a session
    operation reports), the handlers of the MCP server, [urlToContract],
    [openRouterChat] and the two [main] functions that only wire the parts
    together, and [mcpToolsToOpenAI].

    Conventions.

    - A JavaScript string is a Rocq [string] holding the bytes of its UTF-8
      form (a surrogate that stands alone is held as the three bytes of its
      code).  What JavaScript counts, it counts in UTF-16 code units:
      [Js.length] and [Js.slice0] do so on the bytes, and the whitespace
      class [\s] of [trim] and of the regular expressions is the whole
      class of the language, the characters beyond ASCII included
      ([Js.space_len]).  Case mapping acts on the ASCII letters and leaves
      every other character alone: this is what the regular expressions
      with the flag [i] do, and it gives every comparison the program makes
      with a literal; only the texts that the program lower-cases and then
      hands on as they are ([tag] and [type] of a button, [type] of a
      snapshot input) differ from JavaScript's when they hold a letter
      beyond ASCII that has another case.
    - A value that may be [undefined] or [null] is an [option]; the
      JavaScript idiom [x || d] on strings is [Js.or_default].
    - A JavaScript [Set] of strings is a [gset string]; an object used as a
      map from keys to type names is a [gmap string string].
    - A [while] loop is a function with fuel returning an [option]; that the
      fuel given is enough is a lemma ([ensureUnique_total]).
    - cheerio and Playwright are collaborators of the program, not part of
      it.  The parsed document is a tree of [node]s and the handful of
      selectors the program uses are interpreted over it; what Playwright
      answers is carried by the handles ([PageHandle], [BrowserHandle],
      [Chromium]), and a session operation reports the operations of
      Playwright it waited for. *)

From Stdlib Require Import Ascii String List Arith Bool Lia.
From Stdlib Require Import DecimalString DecimalNat.
From stdpp Require Import base option list gmap strings.

Set Warnings "-register-all".

Local Open Scope string_scope.
Local Open Scope list_scope.

(** ** JavaScript strings *)

Module Js.

Definition code (c : ascii) : nat := nat_of_ascii c.

(** The members of [\s] that are one byte long: tab, line feed, vertical
    tab, form feed, carriage return, space. *)
Definition is_space (c : ascii) : bool :=
  let n := code c in (((9 <=? n) && (n <=? 13)) || (n =? 32))%nat.

(** The members of [\s] that are three bytes long: U+1680, U+2000 to
    U+200A, U+2028, U+2029, U+202F, U+205F, U+3000 and U+FEFF. *)
Definition is_space3 (a b d : nat) : bool :=
  (((a =? 225) && (b =? 154) && (d =? 128))
   || ((a =? 226) && (b =? 128)
       && (((128 <=? d) && (d <=? 138)) || (d =? 168) || (d =? 169) || (d =? 175)))
   || ((a =? 226) && (b =? 129) && (d =? 159))
   || ((a =? 227) && (b =? 128) && (d =? 128))
   || ((a =? 239) && (b =? 187) && (d =? 191)))%nat.

(** The number of bytes of the whitespace character [s] starts with, [0]
    when it starts with none.  The class is [\s] of the language, which is
    also what [trim] removes: the six characters of [is_space], U+00A0 (two
    bytes) and the characters of [is_space3]. *)
Definition space_len (s : string) : nat :=
  match s with
  | EmptyString => 0
  | String c1 r1 =>
      if is_space c1 then 1
      else
        match r1 with
        | EmptyString => 0
        | String c2 r2 =>
            if ((code c1 =? 194) && (code c2 =? 160))%nat then 2
            else
              match r2 with
              | EmptyString => 0
              | String c3 _ =>
                  if is_space3 (code c1) (code c2) (code c3) then 3 else 0
              end
        end
  end.

(** A byte that continues a character begun before it. *)
Definition is_cont (c : ascii) : bool :=
  let n := code c in ((128 <=? n) && (n <? 192))%nat.

(** The number of UTF-16 code units of the character whose first byte is
    [c]: two for a character beyond U+FFFF (four bytes), one for every
    other; a continuation byte starts no character. *)
Definition units (c : ascii) : nat :=
  if is_cont c then 0 else if (240 <=? code c)%nat then 2 else 1.

(** [s.length] *)
Fixpoint length (s : string) : nat :=
  match s with
  | EmptyString => 0
  | String c r => units c + length r
  end.

Definition is_upper (c : ascii) : bool :=
  let n := code c in ((65 <=? n) && (n <=? 90))%nat.

Definition is_lower (c : ascii) : bool :=
  let n := code c in ((97 <=? n) && (n <=? 122))%nat.

Definition is_digit (c : ascii) : bool :=
  let n := code c in ((48 <=? n) && (n <=? 57))%nat.

(** The class [[a-zA-Z0-9_]]. *)
Definition is_word (c : ascii) : bool :=
  is_lower c || is_upper c || is_digit c || (code c =? 95)%nat.

Definition lower_char (c : ascii) : ascii :=
  if is_upper c then ascii_of_nat (code c + 32) else c.

Definition upper_char (c : ascii) : ascii :=
  if is_lower c then ascii_of_nat (code c - 32) else c.

Fixpoint map_chars (f : ascii -> ascii) (s : string) : string :=
  match s with
  | EmptyString => EmptyString
  | String c r => String (f c) (map_chars f r)
  end.

Fixpoint filter_chars (p : ascii -> bool) (s : string) : string :=
  match s with
  | EmptyString => EmptyString
  | String c r => if p c then String c (filter_chars p r) else filter_chars p r
  end.

Fixpoint all_chars (p : ascii -> bool) (s : string) : bool :=
  match s with
  | EmptyString => true
  | String c r => p c && all_chars p r
  end.

Definition toLowerCase : string -> string := map_chars lower_char.
Definition toUpperCase : string -> string := map_chars upper_char.

Definition is_empty (s : string) : bool :=
  match s with EmptyString => true | _ => false end.

(** [s.trimStart()]; [skip] counts the bytes still to pass of a whitespace
    character met before. *)
Fixpoint trimStart_from (skip : nat) (s : string) : string :=
  match s with
  | EmptyString => EmptyString
  | String c r =>
      match skip with
      | S k => trimStart_from k r
      | O =>
          match space_len s with
          | O => s
          | S k => trimStart_from k r
          end
      end
  end.

Definition trimStart : string -> string := trimStart_from 0.

(** Nothing but whitespace. *)
Definition is_blank (s : string) : bool := is_empty (trimStart s).

(** [s.trimEnd()] *)
Fixpoint trimEnd (s : string) : string :=
  match s with
  | EmptyString => EmptyString
  | String c r => if is_blank s then EmptyString else String c (trimEnd r)
  end.

Definition trim (s : string) : string := trimStart (trimEnd s).

(** [s.replace(/\s/g, '_')]: every whitespace character becomes one
    underscore. *)
Fixpoint replace_space_each_from (skip : nat) (s : string) : string :=
  match s with
  | EmptyString => EmptyString
  | String c r =>
      match skip with
      | S k => replace_space_each_from k r
      | O =>
          match space_len s with
          | O => String c (replace_space_each_from 0 r)
          | S k => String "_" (replace_space_each_from k r)
          end
      end
  end.

Definition replace_space_each : string -> string :=
  replace_space_each_from 0.

(** [s.replace(/\s+/g, '_')]: every maximal run of whitespace becomes one
    underscore.  [in_run] tells that the previous character was
    whitespace. *)
Fixpoint replace_space_runs_from (skip : nat) (in_run : bool) (s : string)
  : string :=
  match s with
  | EmptyString => EmptyString
  | String c r =>
      match skip with
      | S k => replace_space_runs_from k in_run r
      | O =>
          match space_len s with
          | O => String c (replace_space_runs_from 0 false r)
          | S k =>
              if in_run then replace_space_runs_from k true r
              else String "_" (replace_space_runs_from k true r)
          end
      end
  end.

Definition replace_space_runs : string -> string :=
  replace_space_runs_from 0 false.

(** [s.replace(/[^a-zA-Z0-9_]/g, '')] *)
Definition strip_non_word : string -> string := filter_chars is_word.

(** [s.replace(/\//g, '_')] *)
Definition replace_slashes : string -> string :=
  map_chars (fun c => if (code c =? 47)%nat then "_"%char else c).

(** The first of the two code units of a character beyond U+FFFF whose
    first byte is [c] and whose next bytes start [r]: the surrogate
    [0xD800 + ((code point - 0x10000) >> 10)], as its three bytes. *)
Definition high_surrogate (c : ascii) (r : string) : string :=
  let b1 := match r with String x _ => code x | _ => 128 end in
  let b2 := match r with String _ (String y _) => code y | _ => 128 end in
  let h := ((code c mod 8) * 256 + (b1 mod 64) * 4 + (b2 mod 64) / 16 - 64)%nat in
  String (ascii_of_nat 237)
    (String (ascii_of_nat (160 + h / 64))
       (String (ascii_of_nat (128 + h mod 64)) EmptyString)).

(** [s.slice(0, n)]: the first [n] code units.  A character is kept with
    all its bytes; of a character of two code units of which only one
    fits, its first surrogate is kept. *)
Fixpoint slice0 (n : nat) (s : string) : string :=
  match s with
  | EmptyString => EmptyString
  | String c r =>
      if is_cont c then String c (slice0 n r)
      else
        match n with
        | O => EmptyString
        | S m =>
            if (units c =? 2)%nat
            then match m with
                 | O => high_surrogate c r
                 | S m' => String c (slice0 m' r)
                 end
            else String c (slice0 m r)
        end
  end.

(** [s.slice(n)] where [s] is known to start with a text of [n] bytes, as it
    is wherever the program cuts a prefix off: the bytes of that text are
    what goes. *)
Fixpoint drop (n : nat) (s : string) : string :=
  match n, s with
  | S n', String _ r => drop n' r
  | _, _ => s
  end.

(** [s.startsWith(p)] *)
Fixpoint startsWith (p s : string) : bool :=
  match p, s with
  | EmptyString, _ => true
  | String a p', String b s' => if ascii_dec a b then startsWith p' s' else false
  | String _ _, EmptyString => false
  end.

(** [s.includes(p)] *)
Fixpoint includes (p s : string) : bool :=
  startsWith p s ||
  match s with
  | EmptyString => false
  | String _ r => includes p r
  end.

(** [String(n)] for a natural number: its decimal numeral. *)
Definition of_nat (n : nat) : string :=
  NilEmpty.string_of_uint (Nat.to_uint n).

(** [obj[k]] on a list of named string values: the first value under the
    name, [undefined] when there is none. *)
Fixpoint get (k : string) (l : list (string * string)) : option string :=
  match l with
  | [] => None
  | (k', v) :: r => if String.eqb k k' then Some v else get k r
  end.

(** [s] between double quotes. *)
Definition quoted (s : string) : string :=
  String (ascii_of_nat 34) (s +:+ String (ascii_of_nat 34) EmptyString).

(** [a || d] where [a] is a string or [undefined]: the empty string is
    falsy. *)
Definition or_default (a : option string) (d : string) : string :=
  match a with
  | Some s => if is_empty s then d else s
  | None => d
  end.

(** [a || b] where both sides may be [undefined]. *)
Definition or_else (a b : option string) : option string :=
  match a with
  | Some s => if is_empty s then b else a
  | None => b
  end.

(** [a || null]: an empty attribute value turns into [null]. *)
Definition or_null (a : option string) : option string :=
  match a with
  | Some s => if is_empty s then None else a
  | None => None
  end.

(** Truthiness of a string-or-null value. *)
Definition truthy (a : option string) : bool :=
  match a with
  | Some s => negb (is_empty s)
  | None => false
  end.

End Js.

(** ** contractGenerator.js: [slug] and [ensureUnique] *)

Definition AGENT_PREFIX : string := "/agent".

(** [name.replace(/\s+/g, '_').replace(/[^a-zA-Z0-9_]/g, '').toLowerCase()] *)
Definition slug (name : string) : string :=
  Js.toLowerCase (Js.strip_non_word (Js.replace_space_runs name)).

(** The [n]-th candidate of [ensureUnique]: [baseName + '_' + n]. *)
Definition candidate (baseName : string) (n : nat) : string :=
  baseName +:+ "_" +:+ Js.of_nat n.

(** The [while (used.has(name)) name = baseName + '_' + n++] loop.  Every
    turn of the loop consumes one unit of [fuel]; [None] means the fuel ran
    out before a free name was met. *)
Fixpoint ensureUnique_loop (fuel : nat) (baseName : string) (used : gset string)
    (name : string) (n : nat) : option string :=
  if decide (name ∈ used) then
    match fuel with
    | O => None
    | S fuel' => ensureUnique_loop fuel' baseName used (candidate baseName n) (S n)
    end
  else Some name.

(** [ensureUnique(baseName, used)]: the free name together with the set
    after [used.add(name)].  The loop meets pairwise different candidates, so
    it turns at most [size used] times ([ensureUnique_total] below). *)
Definition ensureUnique (baseName : string) (used : gset string)
    : option (string * gset string) :=
  match ensureUnique_loop (size used) baseName used baseName 2 with
  | Some name => Some (name, {[ name ]} ∪ used)
  | None => None
  end.

(** ** The parsed document (what [cheerio.load] hands to the program) *)

(** A document is a forest of nodes.  Element names are stored the way the
    HTML parser leaves them (lower case); [prop_tagName] gives the upper-case
    name that [$el.prop('tagName')] reports. *)
Inductive node : Type :=
| Text (data : string)
| Element (name : string) (attribs : list (string * string)) (children : list node).

Definition Dom : Type := list node.

(** A selected element together with its chain of ancestors, nearest first
    (cheerio elements know their parent). *)
Record handle : Type := Handle { self : node; ancestors : list node }.

Module Cheerio.

Definition tag (n : node) : string :=
  match n with
  | Text _ => ""
  | Element t _ _ => t
  end.

Definition prop_tagName (n : node) : string := Js.toUpperCase (tag n).

(** [el.attribs[k]]: the attribute as the document has it, [undefined]
    when absent.  This is what the selectors look at. *)
Definition attribute (k : string) (n : node) : option string :=
  match n with
  | Text _ => None
  | Element _ a _ => Js.get k a
  end.

(** The attribute is present. *)
Definition has_attr (k : string) (n : node) : bool :=
  match attribute k n with Some _ => true | None => false end.

(** [$el.text()]: the text of all descendants, in document order. *)
Fixpoint text (n : node) : string :=
  match n with
  | Text d => d
  | Element _ _ cs => String.concat "" (List.map text cs)
  end.

(** The names cheerio takes for boolean attributes, whatever their case. *)
Definition is_boolean_name (k : string) : bool :=
  existsb (String.eqb (Js.toLowerCase k))
    [ "autofocus"; "autoplay"; "async"; "checked"; "controls"; "defer";
      "disabled"; "hidden"; "loop"; "multiple"; "open"; "readonly";
      "required"; "scoped"; "selected" ].

(** [$el.attr(k)].  A present attribute gives its value, or its own name
    when the name is a boolean one (so [!!$el.attr('required')] is
    [has_attr "required"]).  An absent [value] is, as in the DOM, the text
    of an [option] and ["on"] for a radio button or a checkbox; every other
    absent attribute is [undefined]. *)
Definition attr (k : string) (n : node) : option string :=
  match attribute k n with
  | Some v => if is_boolean_name k then Some k else Some v
  | None =>
      if String.eqb k "value" then
        if String.eqb (tag n) "option" then Some (text n)
        else if String.eqb (tag n) "input"
                && match attribute "type" n with
                   | Some t => String.eqb t "radio" || String.eqb t "checkbox"
                   | None => false
                   end
        then Some "on"
        else None
      else None
  end.

(** The element itself followed by all element descendants, in document
    order, each with its ancestors. *)
Fixpoint subtree (anc : list node) (n : node) : list handle :=
  match n with
  | Text _ => []
  | Element _ _ cs => Handle n anc :: List.flat_map (subtree (n :: anc)) cs
  end.

(** The proper element descendants of a selected element. *)
Definition descendants (h : handle) : list handle :=
  match self h with
  | Text _ => []
  | Element _ _ cs => List.flat_map (subtree (self h :: ancestors h)) cs
  end.

(** [$(sel)]: all elements of the document matching [sel]. *)
Definition select (sel : node -> bool) (doc : Dom) : list handle :=
  List.filter (fun h => sel (self h)) (List.flat_map (subtree []) doc).

(** [$el.find(sel)] *)
Definition find (sel : node -> bool) (h : handle) : list handle :=
  List.filter (fun h' => sel (self h')) (descendants h).

(** [$set.first().text()]: the empty string for an empty selection. *)
Definition first_text (hs : list handle) : string :=
  match hs with
  | [] => ""
  | h :: _ => text (self h)
  end.

(** [$set.text()]: the texts of all selected elements, concatenated. *)
Definition all_text (hs : list handle) : string :=
  String.concat "" (List.map (fun h => text (self h)) hs).

(** [$el.closest(sel).length > 0]: the element or one of its ancestors
    matches. *)
Definition has_closest (sel : node -> bool) (h : handle) : bool :=
  existsb sel (self h :: ancestors h).

(** *** The selectors the program uses *)

Definition is_tag (t : string) (n : node) : bool := String.eqb (tag n) t.

(** [[k="v"]] *)
Definition attr_is (k v : string) (n : node) : bool :=
  match attribute k n with Some x => String.eqb x v | None => false end.

(** [[type="v"]]: in an HTML document the selector engine compares the
    value of [type] without regard to case. *)
Definition type_is (v : string) (n : node) : bool :=
  match attribute "type" n with
  | Some x => String.eqb (Js.toLowerCase x) v
  | None => false
  end.

(** [[k*="v"]] *)
Definition attr_contains (k v : string) (n : node) : bool :=
  match attribute k n with Some x => Js.includes v x | None => false end.

(** ['form'] *)
Definition sel_form : node -> bool := is_tag "form".

(** ['input, select, textarea'] *)
Definition sel_field (n : node) : bool :=
  is_tag "input" n || is_tag "select" n || is_tag "textarea" n.

(** ['button[type="submit"], input[type="submit"]'] *)
Definition sel_submit (n : node) : bool :=
  (is_tag "button" n && type_is "submit" n) ||
  (is_tag "input" n && type_is "submit" n).

(** The [buttonSelectors] of [extractInteractiveGroups], joined by commas. *)
Definition sel_buttonSelectors (n : node) : bool :=
  is_tag "button" n ||
  (is_tag "input" n && type_is "button" n) ||
  (is_tag "input" n && type_is "submit" n) ||
  (is_tag "input" n && type_is "image" n) ||
  attr_is "role" "button" n ||
  (is_tag "a" n && attr_contains "class" "btn" n) ||
  (is_tag "a" n && attr_contains "class" "button" n) ||
  has_attr "data-action" n ||
  has_attr "data-submit" n ||
  has_attr "onclick" n.

(** ['a[href]'] *)
Definition sel_a_href (n : node) : bool := is_tag "a" n && has_attr "href" n.

(** ['title'] *)
Definition sel_title : node -> bool := is_tag "title".

(** ['button, input[type="submit"], input[type="button"], [role="button"]']
    of [getSnapshot]. *)
Definition sel_snapshot_buttons (n : node) : bool :=
  is_tag "button" n ||
  (is_tag "input" n && type_is "submit" n) ||
  (is_tag "input" n && type_is "button" n) ||
  attr_is "role" "button" n.

End Cheerio.

(** ** domParser.js *)

Record FieldRecord : Type := mkField {
  field_name : string;
  field_type : string;
  field_required : bool
}.

Record FormRecord : Type := mkForm {
  form_action : string;
  form_method : string;
  form_inputs : list FieldRecord;
  form_submitLabel : string;
  form_id : option string;
  form_className : option string
}.

Record ButtonRecord : Type := mkButton {
  btn_text : string;
  btn_id : option string;
  btn_className : option string;
  btn_tag : string;
  btn_type : string;
  btn_inForm : bool
}.

Record LinkRecord : Type := mkLink {
  link_href : string;
  link_text : string;
  link_className : option string;
  link_id : option string
}.

Record InteractiveGroups : Type := mkGroups {
  forms : list FormRecord;
  buttons : list ButtonRecord;
  links : list LinkRecord
}.

(** [parseDOM(html)] is [cheerio.load]; the embedding starts from its
    result. *)
Definition parseDOM (parsed : Dom) : Dom := parsed.

(** The own keys of the table in [inputTypeToSchema]; [map[type] || 'string']
    for every other key.  (Under a name that every object inherits, such as
    [constructor], [__proto__] or [toString], JavaScript finds a value that
    is not a string; these names are outside the domain of this function,
    and [extractInteractiveGroups] only ever asks for [text], see
    [field_raw_type_cases].) *)
Definition inputTypeToSchema (type : string) : string :=
  if String.eqb type "text" then "string"
  else if String.eqb type "email" then "string"
  else if String.eqb type "password" then "string"
  else if String.eqb type "number" then "number"
  else if String.eqb type "tel" then "string"
  else if String.eqb type "url" then "string"
  else if String.eqb type "hidden" then "string"
  else if String.eqb type "checkbox" then "boolean"
  else if String.eqb type "radio" then "string"
  else if String.eqb type "date" then "string"
  else if String.eqb type "datetime" then "string"
  else if String.eqb type "search" then "string"
  else "string".

(** The [type] constant of the field loop:
    [($inp.attr('type') || $inp.prop('tagName').toLowerCase() === 'select'
       ? 'select' : 'text').toLowerCase()].
    [===] binds tighter than [||], and [||] tighter than [? :], so the
    condition of the conditional is
    [attr('type') || (tagName.toLowerCase() === 'select')]. *)
Definition field_raw_type (inp : node) : string :=
  Js.toLowerCase
    (if Js.truthy (Cheerio.attr "type" inp)
        || String.eqb (Js.toLowerCase (Cheerio.prop_tagName inp)) "select"
     then "select" else "text").

(** One turn of [$form.find('input, select, textarea').each]: nothing is
    pushed for a field without a name. *)
Definition extract_field (inp : handle) : list FieldRecord :=
  let el := self inp in
  match Cheerio.attr "name" el with
  | None => []
  | Some name =>
      if Js.is_empty name then []
      else
        let type := field_raw_type el in
        [ mkField name
            (if String.eqb type "select" then "string" else inputTypeToSchema type)
            (Cheerio.has_attr "required" el) ]
  end.

(** One turn of [$('form').each]. *)
Definition extract_form (f : handle) : FormRecord :=
  let el := self f in
  let action := Js.or_default (Cheerio.attr "action" el) "" in
  let method := Js.toUpperCase (Js.or_default (Cheerio.attr "method" el) "get") in
  let inputs := List.flat_map extract_field (Cheerio.find Cheerio.sel_field f) in
  let submitText :=
    Js.or_default
      (Some (Js.trim (Cheerio.first_text (Cheerio.find Cheerio.sel_submit f))))
      "submit" in
  mkForm action
    (if String.eqb method "GET" then "GET" else "POST")
    inputs submitText
    (Js.or_null (Cheerio.attr "id" el))
    (Js.or_null (Cheerio.attr "class" el)).

(** One turn of [$(buttonSelectors).each]. *)
Definition extract_button (b : handle) : ButtonRecord :=
  let el := self b in
  let text :=
    Js.trim
      (Js.or_default
        (Js.or_else (Some (Js.trim (Cheerio.text el)))
        (Js.or_else (Cheerio.attr "value" el)
        (Js.or_else (Cheerio.attr "aria-label" el)
        (Js.or_else (Cheerio.attr "title" el)
        (Js.or_else (Cheerio.attr "data-label" el)
        (Js.or_else (Cheerio.attr "data-action" el)
                    (Cheerio.attr "alt" el)))))))
        "") in
  mkButton text
    (Js.or_null (Cheerio.attr "id" el))
    (Js.or_null (Cheerio.attr "class" el))
    (if Js.is_empty (Cheerio.prop_tagName el) then ""
     else Js.toLowerCase (Cheerio.prop_tagName el))
    (Js.toLowerCase (Js.or_default (Cheerio.attr "type" el) ""))
    (Cheerio.has_closest Cheerio.sel_form b).

(** [/^\s*javascript\s*:/i.test(href)] *)
Definition is_script_href (href : string) : bool :=
  let s := Js.trimStart href in
  String.eqb (Js.toLowerCase (Js.slice0 10 s)) "javascript"
  && Js.startsWith ":" (Js.trimStart (Js.drop 10 s)).

(** One turn of [$('a[href]').each]: empty, fragment and script targets are
    skipped. *)
Definition extract_link (a : handle) : list LinkRecord :=
  let el := self a in
  let href := Js.trim (Js.or_default (Cheerio.attr "href" el) "") in
  if Js.is_empty href || String.eqb href "#" || Js.startsWith "#" href
     || is_script_href href
  then []
  else
    [ mkLink href (Js.trim (Cheerio.text el))
        (Js.or_null (Cheerio.attr "class" el))
        (Js.or_null (Cheerio.attr "id" el)) ].

Definition extractInteractiveGroups (doc : Dom) : InteractiveGroups :=
  mkGroups
    (List.map extract_form (Cheerio.select Cheerio.sel_form doc))
    (List.map extract_button (Cheerio.select Cheerio.sel_buttonSelectors doc))
    (List.flat_map extract_link (Cheerio.select Cheerio.sel_a_href doc)).

(** ** contractGenerator.js: the contract *)

Record ActionRecord : Type := mkAction {
  action : string;
  method : string;
  endpoint : string;
  schema : gmap string string;
  description : string
}.

Record Contract : Type := mkContract {
  contractName : string;
  actions : list ActionRecord
}.

Record Options : Type := mkOptions { context : option string }.

(** [obj[k] = v] on an object created by a literal.  The key [__proto__] is
    not stored as a property of the object: the assignment goes to the
    inherited accessor, and the object's own entries stay as they were. *)
Definition obj_set {V : Type} (k : string) (v : V) (o : gmap string V)
    : gmap string V :=
  if String.eqb k "__proto__" then o else <[ k := v ]> o.

(** [inferContractName($, contextHint)] *)
Definition inferContractName (doc : Dom) (contextHint : option string) : string :=
  let hinted :=
    match contextHint with
    | Some h =>
        if negb (Js.is_empty h)
           && negb (Js.is_empty (Js.replace_space_each h))
           && Js.all_chars Js.is_word (Js.replace_space_each h)
        then Some (Js.replace_space_each h) else None
    | None => None
    end in
  match hinted with
  | Some n => n
  | None =>
      let title := Js.trim (Cheerio.all_text (Cheerio.select Cheerio.sel_title doc)) in
      if negb (Js.is_empty title)
      then Js.or_default
             (Some (Js.slice0 40 (Js.strip_non_word (Js.replace_space_runs title))))
             "pageActions"
      else "pageActions"
  end.

(** [buildSchemaFromInputs(inputs)]: one entry [{type, required}] per field
    name, a later field of the same name replacing an earlier one. *)
Definition buildSchemaFromInputs (inputs : list FieldRecord)
    : gmap string (string * bool) :=
  fold_left
    (fun sch f => obj_set (field_name f) (field_type f, field_required f) sch)
    inputs ∅.

(** The name of the action of the form at position [idx]. *)
Definition form_actionName (idx : nat) (form : FormRecord) : string :=
  if negb (Js.is_empty (form_submitLabel form))
  then slug (form_submitLabel form)
  else "submitForm_" +:+ Js.of_nat (idx + 1).

(** One turn of [forms.forEach((form, idx) => ...)]. *)
Definition form_to_action (idx : nat) (form : FormRecord) : ActionRecord :=
  let actionName := form_actionName idx form in
  mkAction actionName
    (form_method form)
    (AGENT_PREFIX +:+ "/" +:+ actionName)
    (fst <$> buildSchemaFromInputs (form_inputs form))
    (if negb (Js.is_empty (form_submitLabel form))
     then "Submit: " +:+ form_submitLabel form
     else "Form " +:+ Js.of_nat (idx + 1)).

Fixpoint forms_loop (idx : nat) (fs : list FormRecord) : list ActionRecord :=
  match fs with
  | [] => []
  | f :: r => form_to_action idx f :: forms_loop (S idx) r
  end.

(** [new Set(forms.map(f => f.submitLabel ? slug(f.submitLabel) : '').filter(Boolean))] *)
Definition formActionNames (fs : list FormRecord) : gset string :=
  list_to_set
    (List.filter (fun s => negb (Js.is_empty s))
       (List.map
          (fun f => if negb (Js.is_empty (form_submitLabel f))
                    then slug (form_submitLabel f) else "")
          fs)).

(** [(x.text && slug(x.text)) || (x.id && slug(x.id)) || fallback] *)
Definition base_name (text : string) (id : option string) (fallback : string)
    : string :=
  if negb (Js.is_empty text) && negb (Js.is_empty (slug text)) then slug text
  else
    match id with
    | Some i =>
        if negb (Js.is_empty i) && negb (Js.is_empty (slug i)) then slug i
        else fallback
    | None => fallback
    end.

(** The state the two later loops thread: the actions pushed so far and the
    [usedActions] set. *)
Definition synth_state : Type := (list ActionRecord * gset string)%type.

(** [buttons.forEach((btn, idx) => ...)], from position [idx] on. *)
Fixpoint buttons_loop (formNames : gset string) (idx : nat)
    (bs : list ButtonRecord) (st : synth_state) : option synth_state :=
  match bs with
  | [] => Some st
  | btn :: r =>
      let base := base_name (btn_text btn) (btn_id btn) "" in
      if btn_inForm btn && negb (Js.is_empty base)
         && bool_decide (base ∈ formNames)
      then buttons_loop formNames (S idx) r st
      else
        match ensureUnique
                (if negb (Js.is_empty base) then base
                 else "button_" +:+ Js.of_nat (idx + 1))
                (snd st) with
        | None => None
        | Some (actionName, used') =>
            buttons_loop formNames (S idx) r
              (fst st ++
                 [ mkAction actionName "POST"
                     (AGENT_PREFIX +:+ "/" +:+ actionName) ∅
                     (if negb (Js.is_empty (btn_text btn)) then btn_text btn
                      else Js.or_default (btn_id btn)
                             ("Button " +:+ Js.of_nat (idx + 1))) ],
               used')
        end
  end.

(** [href.replace(/^https?:\/\/[^/]+/, '')]: a leading scheme and host are
    removed when the host has at least one character. *)
Fixpoint skip_host (s : string) : string :=
  match s with
  | EmptyString => EmptyString
  | String c r => if (Js.code c =? 47)%nat then s else skip_host r
  end.

Definition strip_origin (href : string) : string :=
  let after_scheme :=
    if Js.startsWith "http://" href then Some (Js.drop 7 href)
    else if Js.startsWith "https://" href then Some (Js.drop 8 href)
    else None in
  match after_scheme with
  | Some rest =>
      if String.eqb (skip_host rest) rest then href else skip_host rest
  | None => href
  end.

(** [slug(href.replace(...).replace(/\//g, '_').slice(0, 30)) || 'link'] *)
Definition pathSlug (href : string) : string :=
  Js.or_default
    (Some (slug (Js.slice0 30 (Js.replace_slashes (strip_origin href)))))
    "link".

(** [links.forEach((link) => ...)] *)
Fixpoint links_loop (ls : list LinkRecord) (st : synth_state)
    : option synth_state :=
  match ls with
  | [] => Some st
  | link :: r =>
      let baseName :=
        base_name (link_text link) (link_id link) (pathSlug (link_href link)) in
      match ensureUnique baseName (snd st) with
      | None => None
      | Some (actionName, used') =>
          links_loop r
            (fst st ++
               [ mkAction actionName "GET"
                   (AGENT_PREFIX +:+ "/" +:+ actionName) ∅
                   (if negb (Js.is_empty (link_text link)) then link_text link
                    else link_href link) ],
             used')
      end
  end.

(** The state when the loop over the links starts: the actions of the forms
    and of the buttons, and [usedActions]. *)
Definition before_links (g : InteractiveGroups) : option synth_state :=
  let form_actions := forms_loop 0 (forms g) in
  let usedActions : gset string := list_to_set (List.map action form_actions) in
  buttons_loop (formActionNames (forms g)) 0 (buttons g)
    (form_actions, usedActions).

(** The synthesis proper, from the extracted groups on. *)
Definition synthesize (g : InteractiveGroups) : option (list ActionRecord) :=
  match before_links g with
  | None => None
  | Some st =>
      match links_loop (links g) st with
      | None => None
      | Some st' => Some (fst st')
      end
  end.

(** The state when the loop over the links reaches the link of index [k]:
    the actions pushed, and the names taken, by the forms, the buttons and
    the [k] links before it. *)
Definition before_link (g : InteractiveGroups) (k : nat) : option synth_state :=
  match before_links g with
  | None => None
  | Some st => links_loop (firstn k (links g)) st
  end.

(** [generateContract(html, options)], on the parsed [html]. *)
Definition generateContract (html : Dom) (options : Options) : option Contract :=
  let doc := parseDOM html in
  let g := extractInteractiveGroups doc in
  let contractName := inferContractName doc (context options) in
  match synthesize g with
  | Some acts => Some (mkContract contractName acts)
  | None => None
  end.

(** ** apiDiscovery.js *)

(** A decoded request body.  The text of a number is kept as it was written;
    the program only asks for its [typeof]. *)
Inductive json : Type :=
| JNull
| JBool (b : bool)
| JNumber (literal : string)
| JString (s : string)
| JArray (items : list json)
| JObject (members : list (string * json)).

Definition typeof (v : json) : string :=
  match v with
  | JNull => "object"
  | JBool _ => "boolean"
  | JNumber _ => "number"
  | JString _ => "string"
  | JArray _ => "object"
  | JObject _ => "object"
  end.

Definition is_null (v : json) : bool :=
  match v with JNull => true | _ => false end.

Definition isArray (v : json) : bool :=
  match v with JArray _ => true | _ => false end.

(** The pairs of an array: its indices, written in decimal, with its
    items. *)
Fixpoint index_entries (i : nat) (items : list json) : list (string * json) :=
  match items with
  | [] => []
  | v :: r => (Js.of_nat i, v) :: index_entries (S i) r
  end.

(** [Object.entries(obj)] *)
Definition entries (obj : json) : list (string * json) :=
  match obj with
  | JObject members => members
  | JArray items => index_entries 0 items
  | _ => []
  end.

(** The type name the loop of [inferSchemaFromBody] stores for a value. *)
Definition value_schema (v : json) : string :=
  if is_null v then "string"
  else if isArray v then "array"
  else if String.eqb (typeof v) "object" then "object"
  else typeof v.

(** [inferSchemaFromBody(obj)] *)
Definition inferSchemaFromBody (obj : json) : gmap string string :=
  if is_null obj || negb (String.eqb (typeof obj) "object")
  then {[ "_body" := typeof obj ]}
  else
    fold_left (fun sch kv => obj_set (fst kv) (value_schema (snd kv)) sch)
      (entries obj) ∅.

(** What a method of a Playwright object does when called. *)
Inductive outcome (A : Type) : Type :=
| Returns (a : A)
| Throws.
Arguments Returns {A} a.
Arguments Throws {A}.

(** An intercepted request, as the [requestfinished] event delivers it. *)
Record Request : Type := mkRequest {
  resourceType : string;
  req_url : string;
  req_method : string;
  postData : outcome (option string);
  postDataJSON : outcome (option json);
  headers : list (string * string)
}.

Record DiscoveredApi : Type := mkApi {
  api_method : string;
  api_url : string;
  postDataSample : option string;
  bodySchema : option (gmap string string);
  contentType : option string
}.

Definition API_RESOURCE_TYPES : gset string := {[ "xhr"; "fetch" ]}.

(** The [key] of a request: [`${method} ${u}`]. *)
Definition request_key (request : Request) : string :=
  req_method request +:+ " " +:+ req_url request.

(** The [try { postData = ...; postDataJSON = ... } catch (_) {}] block:
    both variables start as [null], and a throw leaves the variables not yet
    assigned at [null]. *)
Definition read_body (request : Request) : option string * option json :=
  match postData request with
  | Throws => (None, None)
  | Returns pd =>
      match postDataJSON request with
      | Throws => (pd, None)
      | Returns pj => (pd, pj)
      end
  end.

(** [postDataJSON && typeof postDataJSON === 'object'
       ? inferSchemaFromBody(postDataJSON) : undefined].
    A value that is not [null] and whose [typeof] is ['object'] is truthy,
    and for every other value the conjunction is false. *)
Definition body_schema_of (pj : option json) : option (gmap string string) :=
  match pj with
  | Some v =>
      if negb (is_null v) && String.eqb (typeof v) "object"
      then Some (inferSchemaFromBody v) else None
  | None => None
  end.

(** The record pushed for a request. *)
Definition api_record (request : Request) : DiscoveredApi :=
  let '(pd, pj) := read_body request in
  mkApi (req_method request) (req_url request)
    (Js.or_null pd)
    (body_schema_of pj)
    (Js.or_null
       (Some (Js.slice0 80
                (Js.or_default (Js.get "content-type" (headers request)) "")))).

(** The state of one capture: [discoveredApis] and [seen]. *)
Definition capture_state : Type := (list DiscoveredApi * gset string)%type.

(** The handler of [page.on('requestfinished', ...)].  It awaits nothing, so
    each event is handled in one piece. *)
Definition on_requestfinished (st : capture_state) (request : Request)
    : capture_state :=
  if negb (bool_decide (resourceType request ∈ API_RESOURCE_TYPES)) then st
  else if bool_decide (request_key request ∈ snd st) then st
  else (fst st ++ [ api_record request ], {[ request_key request ]} ∪ snd st).

Record Discovery : Type := mkDiscovery {
  html : Dom;
  discoveredApis : list DiscoveredApi
}.

(** [fetchWithApiDiscovery], for a page load that succeeds: [events] are the
    requests that finish before the settle window closes, in the order of
    their events, and [content] is the markup read afterwards. *)
Definition fetchWithApiDiscovery (events : list Request) (content : Dom)
    : Discovery :=
  mkDiscovery content (fst (fold_left on_requestfinished events ([], ∅))).

(** ** browserSession.js *)

(** A thrown value: the class name of the error and its message. *)
Record JsError : Type := mkError { err_name : string; err_message : string }.

(** [new Error(message)] *)
Definition Error (message : string) : JsError := mkError "Error" message.

Inductive result (A : Type) : Type :=
| Ok (a : A)
| Throw (e : JsError).
Arguments Ok {A} a.
Arguments Throw {A} e.

(** The locators the module builds. *)
Inductive Locator : Type :=
| locator (selector : string)
| getByRole (role name : string)
| getByText (text : string) (exact : bool)
| getByLabel (text : string)
| getByPlaceholder (text : string)
| first (l : Locator)
| or (a b : Locator).

(** What the live page answers during one operation. *)
Record PageHandle : Type := mkPage {
  page_content : result Dom;
  page_url : string;
  page_locator : string -> option JsError;
  locator_click : Locator -> N -> option JsError;
  locator_fill : Locator -> string -> N -> option JsError
}.

Record ContextHandle : Type := mkContext { newPage : result PageHandle }.

Record BrowserHandle : Type := mkBrowser {
  newContext : result ContextHandle;
  browser_close : option JsError
}.

(** [chromium.launch({ headless, args })] *)
Record Chromium : Type := mkChromium {
  chromium_launch : bool -> list string -> result BrowserHandle
}.

(** The two module variables [browser] and [page]. *)
Record Session : Type := mkSession {
  browser : option BrowserHandle;
  page : option PageHandle
}.

(** The operations of the collaborators a function waits for. *)
Inductive Awaited : Type :=
| await_launch (headless : bool)
| await_newContext
| await_newPage
| await_click (l : Locator) (timeout : N)
| await_fill (l : Locator) (value : string) (timeout : N)
| await_content
| await_close.

(** A session operation: from the module variables to a result, the
    variables afterwards, and the operations it waited for, in order. *)
Definition SessionOp (A : Type) : Type :=
  Session -> result A * Session * list Awaited.

Definition ret {A} (a : A) : SessionOp A := fun s => (Ok a, s, []).

Definition throw {A} (e : JsError) : SessionOp A := fun s => (Throw e, s, []).

Definition bind {A B} (m : SessionOp A) (k : A -> SessionOp B) : SessionOp B :=
  fun s =>
    match m s with
    | (Ok a, s', t) => let '(r, s'', t') := k a s' in (r, s'', t ++ t')
    | (Throw e, s', t) => (Throw e, s', t)
    end.

(** [await] on an operation of a collaborator. *)
Definition await {A} (what : Awaited) (r : result A) : SessionOp A :=
  fun s => (r, s, [what]).

Definition await_unit (what : Awaited) (r : option JsError) : SessionOp unit :=
  await what (match r with None => Ok tt | Some e => Throw e end).

Definition get_browser : SessionOp (option BrowserHandle) :=
  fun s => (Ok (browser s), s, []).

Definition get_page : SessionOp (option PageHandle) :=
  fun s => (Ok (page s), s, []).

Definition set_browser (b : option BrowserHandle) : SessionOp unit :=
  fun s => (Ok tt, mkSession b (page s), []).

Definition set_page (p : option PageHandle) : SessionOp unit :=
  fun s => (Ok tt, mkSession (browser s) p, []).

Declare Scope session_scope.
Delimit Scope session_scope with session.
Notation "'let*' x ':=' m 'in' k" := (bind m (fun x => k))
  (at level 10, x name, m at level 100, k at level 200) : session_scope.
Notation "'do' m 'then' k" := (bind m (fun _ => k))
  (at level 10, m at level 100, k at level 200) : session_scope.
Local Open Scope session_scope.

Definition NOT_LAUNCHED : JsError :=
  Error "Browser not launched. Call browser_launch first.".

(** [if (!page) throw new Error('Browser not launched. ...')] *)
Definition require_page : SessionOp PageHandle :=
  let* p := get_page in
  match p with
  | None => throw NOT_LAUNCHED
  | Some pg => ret pg
  end.

Definition hasPage (s : Session) : bool :=
  match page s with Some _ => true | None => false end.

Record LaunchOptions : Type := mkLaunchOptions { headed : bool }.

Record Message : Type := mkMessage { ok : bool; message : string }.

(** [launch(options)].  The user agent and the viewport handed to
    [newContext] are constants and are left out. *)
Definition launch (chromium : Chromium) (options : LaunchOptions)
    : SessionOp Message :=
  let* b := get_browser in
  match b with
  | Some _ => ret (mkMessage true "Browser already open")
  | None =>
      let* br := await (await_launch (negb (headed options)))
              (chromium_launch chromium (negb (headed options))
                 (if headed options then [] else ["--no-sandbox"])) in
      do set_browser (Some br) then
      let* ctx := await await_newContext (newContext br) in
      let* pg := await await_newPage (newPage ctx) in
      do set_page (Some pg) then
      ret (mkMessage true
             (if headed options then "Browser opened (visible)"
              else "Browser opened (headless)"))
  end.

(** [/^[#.\[]|[a-z]+\[|^input$|^button$/i.test(s) || s.includes('>>')] *)
Fixpoint letter_then_bracket (s : string) : bool :=
  match s with
  | String c ((String d _) as r) =>
      ((Js.is_lower c || Js.is_upper c) && (Js.code d =? 91)%nat)
      || letter_then_bracket r
  | _ => false
  end.

Definition looksLikeSelector (s : string) : bool :=
  Js.startsWith "#" s || Js.startsWith "." s || Js.startsWith "[" s
  || letter_then_bracket s
  || String.eqb (Js.toLowerCase s) "input"
  || String.eqb (Js.toLowerCase s) "button"
  || Js.includes ">>" s.

Record Clicked : Type := mkClicked { click_ok : bool; clicked : string }.

(** The fallback chain of [click]. *)
Definition click_fallback (s : string) : Locator :=
  or (or (getByRole "button" s) (getByRole "link" s)) (first (getByText s false)).

(** The locator [click] ends up with for the trimmed input [s]: the direct
    one when [s] looks like a short selector and [page.locator] accepts it,
    the fallback chain otherwise. *)
Definition click_locator (pg : PageHandle) (s : string) : Locator :=
  let direct : option Locator :=
    if looksLikeSelector s && (Js.length s <? 200)%nat
    then match page_locator pg s with
         | None => Some (first (locator s))
         | Some _ => None
         end
    else None in
  match direct with Some l => l | None => click_fallback s end.

(** [click(descriptionOrSelector)] *)
Definition click (descriptionOrSelector : option string) : SessionOp Clicked :=
  let* pg := require_page in
  let s := Js.trim (Js.or_default descriptionOrSelector "") in
  if Js.is_empty s then throw (Error "click: description or selector is required")
  else
    let loc := click_locator pg s in
    do await_unit (await_click loc 10000%N) (locator_click pg loc 10000%N) then
    ret (mkClicked true s).

Record Filled : Type := mkFilled { fill_ok : bool; field : string; value : string }.

(** The selector of the [byName] locator of [fill]. *)
Definition fill_selector (id : string) : string :=
  "input[name=" +:+ Js.quoted id +:+ "], select[name=" +:+ Js.quoted id
    +:+ "], textarea[name=" +:+ Js.quoted id +:+ "]".

(** [byName.or(byLabel).or(byPlaceholder)] *)
Definition fill_locator (id : string) : Locator :=
  let byName := first (locator (fill_selector id)) in
  let byLabel := first (getByLabel id) in
  let byPlaceholder := first (getByPlaceholder id) in
  or (or byName byLabel) byPlaceholder.

(** [fill(fieldIdentifier, value)] *)
Definition fill (fieldIdentifier : string) (v : string) : SessionOp Filled :=
  let* pg := require_page in
  let id := Js.trim fieldIdentifier in
  match page_locator pg (fill_selector id) with
  | Some e => throw e
  | None =>
      let loc := fill_locator id in
      do await_unit (await_fill loc v 8000%N) (locator_fill pg loc v 8000%N) then
      ret (mkFilled true id v)
  end.

Record SnapButton : Type := mkSnapButton {
  sb_type : string; sb_text : string; sb_tag : string
}.

Record SnapLink : Type := mkSnapLink {
  sl_type : string; sl_text : string; sl_href : string
}.

Record SnapInput : Type := mkSnapInput {
  si_name : string; si_label : string; si_type : string
}.

Record SnapForm : Type := mkSnapForm {
  sf_type : string; sf_submitLabel : string; sf_inputs : list SnapInput
}.

Record Snapshot : Type := mkSnapshot {
  snap_url : string;
  snap_title : string;
  snap_buttons : list SnapButton;
  snap_links : list SnapLink;
  snap_forms : list SnapForm
}.

Definition snapshot_button (h : handle) : list SnapButton :=
  let el := self h in
  let text :=
    Js.slice0 80
      (Js.trim
         (Js.or_default
            (Js.or_else (Some (Cheerio.text el))
            (Js.or_else (Cheerio.attr "value" el) (Cheerio.attr "aria-label" el)))
            "")) in
  if negb (Js.is_empty text)
  then [ mkSnapButton "button" text (Js.toLowerCase (Cheerio.prop_tagName el)) ]
  else [].

Definition snapshot_link (h : handle) : list SnapLink :=
  let el := self h in
  let href := Js.or_default (Cheerio.attr "href" el) "" in
  if Js.is_empty href || String.eqb href "#" || Js.startsWith "javascript:" href
  then []
  else
    let text := Js.slice0 80 (Js.trim (Cheerio.text el)) in
    if negb (Js.is_empty text)
    then [ mkSnapLink "link" text (Js.slice0 200 href) ]
    else [].

Definition snapshot_input (h : handle) : list SnapInput :=
  let el := self h in
  match Cheerio.attr "name" el with
  | None => []
  | Some name =>
      if Js.is_empty name
         || String.eqb (Js.toLowerCase (Js.or_default (Cheerio.attr "type" el) ""))
              "hidden"
      then []
      else
        [ mkSnapInput name
            (Js.or_default
               (Js.or_else (Cheerio.attr "aria-label" el)
                           (Cheerio.attr "placeholder" el))
               name)
            (Js.toLowerCase (Js.or_default (Cheerio.attr "type" el) "text")) ]
  end.

Definition snapshot_form (h : handle) : SnapForm :=
  mkSnapForm "form"
    (Js.or_default
       (Some (Js.trim (Cheerio.first_text (Cheerio.find Cheerio.sel_submit h))))
       "Submit")
    (List.flat_map snapshot_input (Cheerio.find Cheerio.sel_field h)).

(** [getSnapshot()] *)
Definition getSnapshot : SessionOp Snapshot :=
  let* pg := require_page in
  let* doc := await await_content (page_content pg) in
  let buttons := List.flat_map snapshot_button
                   (Cheerio.select Cheerio.sel_snapshot_buttons doc) in
  let links := List.flat_map snapshot_link
                 (Cheerio.select Cheerio.sel_a_href doc) in
  let forms := List.map snapshot_form (Cheerio.select Cheerio.sel_form doc) in
  let title :=
    Js.or_default
      (Some (Js.trim (Cheerio.all_text (Cheerio.select Cheerio.sel_title doc))))
      "" in
  ret (mkSnapshot (page_url pg) title
         (firstn 50 buttons) (firstn 80 links) forms).

(** [close()] *)
Definition close : SessionOp Message :=
  let* b := get_browser in
  match b with
  | Some br =>
      do await_unit await_close (browser_close br) then
      do set_browser None then
      do set_page None then
      ret (mkMessage true "Browser closed")
  | None => ret (mkMessage true "No browser was open")
  end.

(** [fillForm(fields)].  [fields] is the list [Object.entries(fields)] runs
    over; [results] collects [{ field: name, value }] after each fill. *)
Record FilledForm : Type := mkFilledForm {
  form_ok : bool;
  filled : list (string * string)
}.

Fixpoint fillForm_loop (fields results : list (string * string))
    : SessionOp (list (string * string)) :=
  match fields with
  | [] => ret results
  | (name, v) :: r =>
      do fill name v then
      fillForm_loop r (results ++ [ (name, v) ])
  end.

Definition fillForm (fields : list (string * string)) : SessionOp FilledForm :=
  let* _ := require_page in
  let* results := fillForm_loop fields [] in
  ret (mkFilledForm true results).

(** ** contractGenerator.js, the variant that lists the discovered APIs *)

(** [s.replace(/\/$/, '')]: one slash at the very end is removed. *)
Fixpoint strip_trailing_slash (s : string) : string :=
  match s with
  | EmptyString => EmptyString
  | String c r =>
      if Js.is_empty r
      then (if (Js.code c =? 47)%nat then EmptyString else s)
      else String c (strip_trailing_slash r)
  end.

(** [s.split('/')] *)
Fixpoint split_slash (s : string) : list string :=
  match s with
  | EmptyString => [ EmptyString ]
  | String c r =>
      if (Js.code c =? 47)%nat then EmptyString :: split_slash r
      else match split_slash r with
           | [] => [ String c EmptyString ]
           | p :: ps => String c p :: ps
           end
  end.

(** [l.slice(-2)] *)
Definition last_two {A : Type} (l : list A) : list A := skipn (length l - 2) l.

(** The class [[a-z0-9_]]. *)
Definition is_name_char (c : ascii) : bool :=
  Js.is_lower c || Js.is_digit c || (Js.code c =? 95)%nat.

(** [s.replace(/[^a-z0-9_]/g, '_')]: one underscore for every code unit
    outside the class. *)
Fixpoint sanitize (s : string) : string :=
  match s with
  | EmptyString => EmptyString
  | String c r =>
      if is_name_char c then String c (sanitize r)
      else if Js.is_cont c then sanitize r
      else if (Js.units c =? 2)%nat then String "_" (String "_" (sanitize r))
      else String "_" (sanitize r)
  end.

(** The [slug] constant of [apiActionName] for a url whose [pathname] is
    known. *)
Definition api_slug (pathname method : string) : string :=
  let path := Js.or_default (Some (strip_trailing_slash pathname)) "root" in
  let base :=
    Js.or_default
      (Some (String.concat "_"
               (last_two
                  (List.filter (fun p => negb (Js.is_empty p)) (split_slash path)))))
      "api" in
  sanitize (Js.toLowerCase method +:+ "_" +:+ base).

Record ApiEndpoint : Type := mkEndpoint {
  ep_action : string;
  ep_method : string;
  ep_url : string;
  ep_bodySchema : option (gmap string string);
  ep_description : string
}.

Record ApiContract : Type := mkApiContract {
  api_contractName : string;
  api_actions : list ActionRecord;
  apiEndpoints : option (list ApiEndpoint)
}.

Record ApiOptions : Type := mkApiOptions {
  api_context : option string;
  opt_discoveredApis : option (list DiscoveredApi)
}.

Section UrlParser.

(** [new URL(url).pathname]; [None] when the constructor throws. *)
Variable URL_pathname : string -> option string.

(** [apiActionName(api, used)].  Its loop is the loop of [ensureUnique], with
    the slug as base name; the [catch] branch adds the positional name
    without looking it up. *)
Definition apiActionName (api : DiscoveredApi) (used : gset string)
    : option (string * gset string) :=
  match URL_pathname (api_url api) with
  | Some pathname => ensureUnique (api_slug pathname (api_method api)) used
  | None =>
      let name := "api_" +:+ Js.of_nat (size used + 1) in
      Some (name, {[ name ]} ∪ used)
  end.

(** [for (const api of options.discoveredApis) ...] *)
Fixpoint endpoints_loop (apis : list DiscoveredApi)
    (st : list ApiEndpoint * gset string)
    : option (list ApiEndpoint * gset string) :=
  match apis with
  | [] => Some st
  | api :: r =>
      match apiActionName api (snd st) with
      | None => None
      | Some (actionName, used') =>
          endpoints_loop r
            (fst st ++
               [ mkEndpoint actionName (api_method api) (api_url api)
                   (bodySchema api)
                   ("Real API: " +:+ api_method api +:+ " " +:+ api_url api) ],
             used')
      end
  end.

(** [generateContract(html, options)] of the variant, on the parsed [html].
    [usedActions] starts empty and receives the names of the form actions
    after the loop over the forms; the loops over the buttons and the links
    are the ones of [contractGenerator.js]. *)
Definition generateContract_apis (html : Dom) (options : ApiOptions)
    : option ApiContract :=
  let doc := parseDOM html in
  let g := extractInteractiveGroups doc in
  let contractName := inferContractName doc (api_context options) in
  let form_actions := forms_loop 0 (forms g) in
  let usedActions : gset string :=
    fold_left (fun used a => {[ action a ]} ∪ used) form_actions ∅ in
  match buttons_loop (formActionNames (forms g)) 0 (buttons g)
          (form_actions, usedActions) with
  | None => None
  | Some st =>
      match links_loop (links g) st with
      | None => None
      | Some st' =>
          match endpoints_loop
                  (match opt_discoveredApis options with
                   | Some apis => apis
                   | None => []
                   end)
                  ([], snd st') with
          | None => None
          | Some (eps, _) =>
              Some (mkApiContract contractName (fst st')
                      (match eps with [] => None | _ => Some eps end))
          end
      end
  end.

End UrlParser.

(** ** fetcher.js *)

(** What Chromium and the network answer during one [fetchHtmlWithChromium]:
    [None] is success for the steps that return nothing of interest. *)
Record FetchWorld : Type := mkFetchWorld {
  fw_launch : option JsError;
  fw_newPage : option JsError;
  fw_goto : option JsError;
  fw_content : result string;
  fw_close : option JsError;
  fw_fetch : result (bool * nat);
  fw_text : result string
}.

(** The operations [fetchHtmlWithChromium] waits for. *)
Inductive FetchStep : Type :=
| step_launch
| step_newPage
| step_goto
| step_settle
| step_content
| step_close
| step_http_get
| step_text.

(** The inner [try] block, after a successful launch: the markup or the
    error, with the steps taken. *)
Definition chromium_page (w : FetchWorld) : result string * list FetchStep :=
  match fw_newPage w with
  | Some e => (Throw e, [ step_newPage ])
  | None =>
      match fw_goto w with
      | Some e => (Throw e, [ step_newPage; step_goto ])
      | None =>
          (fw_content w, [ step_newPage; step_goto; step_settle; step_content ])
      end
  end.

(** The inner [try ... finally { await browser.close() }]: the browser is
    closed whatever the block did, and an error of [close] replaces the
    block's outcome. *)
Definition chromium_attempt (w : FetchWorld) : result string * list FetchStep :=
  match fw_launch w with
  | Some e => (Throw e, [ step_launch ])
  | None =>
      let '(r, t) := chromium_page w in
      match fw_close w with
      | Some e => (Throw e, step_launch :: t ++ [ step_close ])
      | None => (r, step_launch :: t ++ [ step_close ])
      end
  end.

(** The fallback: a plain HTTP GET. *)
Definition http_fallback (w : FetchWorld) (url : string)
    : result string * list FetchStep :=
  match fw_fetch w with
  | Throw e => (Throw e, [ step_http_get ])
  | Ok (res_ok, status) =>
      if res_ok then (fw_text w, [ step_http_get; step_text ])
      else (Throw (Error ("HTTP " +:+ Js.of_nat status +:+ ": " +:+ url)),
            [ step_http_get ])
  end.

(** [fetchHtmlWithChromium(url, { useChromium })] *)
Definition fetchHtmlWithChromium (w : FetchWorld) (url : string)
    (useChromium : bool) : result string * list FetchStep :=
  if useChromium then
    match chromium_attempt w with
    | (Ok html, t) => (Ok html, t)
    | (Throw _, t) => let '(r, t') := http_fallback w url in (r, t ++ t')
    end
  else http_fallback w url.

(** ** cli.js *)

Module Cli.

Definition is_flag (a : string) : bool := Js.startsWith "--" a.

(** [process.argv.includes(x)] *)
Definition includes (x : string) (argv : list string) : bool :=
  existsb (String.eqb x) argv.

(** [p ? p.slice(prefix.length) : undefined] for
    [p = process.argv.find((a) => a.startsWith(prefix))] *)
Definition value_of (prefix : string) (argv : list string) : option string :=
  match List.find (Js.startsWith prefix) argv with
  | Some a =>
      if negb (Js.is_empty a) then Some (Js.drop (String.length prefix) a)
      else None
  | None => None
  end.

Definition runMcp (argv : list string) : bool := includes "--mcp" argv.

(** [process.argv.filter((a) => !a.startsWith('--'))[2] ?? process.argv[2]] *)
Definition url (argv : list string) : option string :=
  match nth_error (List.filter (fun a => negb (is_flag a)) argv) 2 with
  | Some u => Some u
  | None => nth_error argv 2
  end.

Definition useChromium (argv : list string) : bool :=
  negb (includes "--no-chromium" argv).

Definition discoverApis (argv : list string) : bool :=
  includes "--discover-apis" argv.

Definition context (argv : list string) : option string :=
  value_of "--context=" argv.

Definition htmlPath (argv : list string) : option string :=
  value_of "--html=" argv.

Definition outputPath (argv : list string) : option string :=
  value_of "--output=" argv.

(** Where [writeContract] sends the contract. *)
Inductive Target : Type :=
| to_file (outputPath : string)
| to_stdout.

Definition writeContract (argv : list string) : Target :=
  match outputPath argv with
  | Some p => if negb (Js.is_empty p) then to_file p else to_stdout
  | None => to_stdout
  end.

(** What [main] goes on to do. *)
Inductive Plan : Type :=
| start_mcp
| contract_from_file (htmlPath : string) (context : option string) (out : Target)
| usage
| contract_from_url (url : string) (context : option string)
    (useChromium discoverApis : bool) (out : Target).

(** The last part of [main], reached without [--mcp] and without an html
    path. *)
Definition from_url (argv : list string) : Plan :=
  match url argv with
  | Some u =>
      if Js.is_empty u || is_flag u then usage
      else contract_from_url u (context argv) (useChromium argv)
             (discoverApis argv) (writeContract argv)
  | None => usage
  end.

Definition main (argv : list string) : Plan :=
  if runMcp argv then start_mcp
  else
    match htmlPath argv with
    | Some p =>
        if negb (Js.is_empty p)
        then contract_from_file p (context argv) (writeContract argv)
        else from_url argv
    | None => from_url argv
    end.

End Cli.

(** ** agent.js: the agent loop *)

Module Agent.

Record ToolCall : Type := mkToolCall {
  tc_id : option string;
  tc_name : option string;
  tc_arguments : option string
}.

(** [choice.message] of a chat completion. *)
Record Reply : Type := mkReply {
  reply_content : option string;
  reply_tool_calls : option (list ToolCall)
}.

(** One entry of [currentMessages]. *)
Record ChatMessage : Type := mkChatMessage {
  role : string;
  content : option string;
  tool_calls : option (list ToolCall);
  tool_call_id : option string
}.

(** What [mcpClient.callTool] resolves to, as far as the loop looks at it:
    [result.content?.[0]?.text], [result.isError] and
    [JSON.stringify(result)]. *)
Record ToolResult : Type := mkToolResult {
  first_text : option string;
  isError : bool;
  stringified : string
}.

(** The collaborators of one run: the chat completion for a conversation
    ([Ok None] is a response without a message), [JSON.parse] on the
    arguments of a tool call ([None] when it throws), and the MCP client.
    The arguments of a tool call are taken to be text, as the chat API sends
    them. *)
Record World : Type := mkWorld {
  openRouterChat : list ChatMessage -> result (option Reply);
  parse_arguments : string -> option json;
  callTool : option string -> json -> result ToolResult
}.

(** What a run did: the number of chat completions asked for and the tool
    calls made, in order. *)
Record Effects : Type := mkEffects {
  chats : nat;
  tools_called : list (option string * json)
}.

Definition maxTurns : nat := 15.

(** The [text] pushed for a tool result:
    [result.content?.[0]?.text ??
       (result.isError ? String(result.content?.[0]?.text || 'Error')
                       : JSON.stringify(result))]. *)
Definition tool_text (r : ToolResult) : string :=
  match first_text r with
  | Some t => t
  | None => if isError r then "Error" else stringified r
  end.

(** The [args] of a tool call: the parsed arguments, [{}] when parsing
    throws. *)
Definition tool_args (w : World) (tc : ToolCall) : json :=
  match parse_arguments w (Js.or_default (tc_arguments tc) "{}") with
  | Some a => a
  | None => JObject []
  end.

(** [for (const tc of msg.tool_calls) ...]: the conversation and the effects
    after the calls, or the error of the first call that fails. *)
Fixpoint call_tools (w : World) (tcs : list ToolCall)
    (msgs : list ChatMessage) (eff : Effects)
    : result (list ChatMessage) * Effects :=
  match tcs with
  | [] => (Ok msgs, eff)
  | tc :: r =>
      let args := tool_args w tc in
      let eff' := mkEffects (chats eff) (tools_called eff ++ [ (tc_name tc, args) ]) in
      match callTool w (tc_name tc) args with
      | Throw e => (Throw e, eff')
      | Ok res =>
          call_tools w r
            (msgs ++ [ mkChatMessage "tool" (Some (tool_text res)) None (tc_id tc) ])
            eff'
      end
  end.

Definition NO_FINAL_REPLY : string :=
  "I didn't get a final reply. Try asking again or give me a specific store URL (e.g. a trekking shop) so I can fetch its contract and suggest actions.".

(** The [while (turn < maxTurns)] loop with [remaining = maxTurns - turn];
    [msgs] is [currentMessages]. *)
Fixpoint agent_loop (w : World) (remaining : nat) (msgs : list ChatMessage)
    (eff : Effects) : result string * Effects :=
  match remaining with
  | O => (Ok "(Max turns reached)", eff)
  | S remaining' =>
      let eff1 := mkEffects (S (chats eff)) (tools_called eff) in
      match openRouterChat w msgs with
      | Throw e => (Throw e, eff1)
      | Ok None => (Throw (Error "No message in OpenRouter response"), eff1)
      | Ok (Some msg) =>
          let msgs1 :=
            msgs ++ [ mkChatMessage "assistant" (reply_content msg)
                        (reply_tool_calls msg) None ] in
          match reply_tool_calls msg with
          | Some (tc :: tcs) =>
              match call_tools w (tc :: tcs) msgs1 eff1 with
              | (Throw e, eff2) => (Throw e, eff2)
              | (Ok msgs2, eff2) => agent_loop w remaining' msgs2 eff2
              end
          | _ =>
              let text :=
                match reply_content msg with
                | Some c => if negb (Js.is_empty c) then Js.trim c else ""
                | None => ""
                end in
              (Ok (if negb (Js.is_empty text) then text else NO_FINAL_REPLY), eff1)
          end
      end
  end.

(** [runAgentTurn(apiKey, mcpClient, toolsOpenAI, messages, model)] *)
Definition runAgentTurn (w : World) (messages : list ChatMessage)
    : result string * Effects :=
  agent_loop w maxTurns messages (mkEffects 0 []).

End Agent.

(** ** Predicates used by the statements below *)

(** A name that lower-casing leaves alone. *)
Definition lower_fixed (s : string) : Prop := Js.toLowerCase s = s.

(** An action whose endpoint is [/agent/] followed by its own name. *)
Definition endpoint_ok (a : ActionRecord) : Prop :=
  endpoint a = "/agent/" +:+ action a.

(** The names of a list of actions, in order. *)
Definition names (acts : list ActionRecord) : list string :=
  List.map action acts.

(** The names the forms of a document give to their actions. *)
Definition form_names (html : Dom) : list string :=
  names (forms_loop 0 (forms (extractInteractiveGroups (parseDOM html)))).

(** [pushes st st']: [st'] comes from [st] by pushing actions one at a time,
    each under a name that [ensureUnique] allocated from a lower-case base
    name. *)
Inductive pushes : synth_state -> synth_state -> Prop :=
| pushes_refl st : pushes st st
| pushes_step st base name used' a st' :
    ensureUnique base (snd st) = Some (name, used') ->
    lower_fixed base ->
    action a = name ->
    endpoint_ok a ->
    pushes (fst st ++ [a], used') st' ->
    pushes st st'.

(** What the loops over buttons and links keep true.  [F] is the list of
    the names of the form actions. *)
Record synth_inv (F : list string) (st : synth_state) : Prop := mkInv {
  inv_names : exists E, names (fst st) = F ++ E /\ NoDup E /\
                        forall x, x ∈ E -> x ∉ F;
  inv_used : forall x, x ∈ snd st <-> x ∈ names (fst st);
  inv_endpoint : Forall endpoint_ok (fst st);
  inv_lower : Forall lower_fixed F -> Forall lower_fixed (names (fst st))
}.

(** Equality of strings when case is ignored, the way the program tests
    it: after [toUpperCase]. *)
Definition same_ignoring_case (a b : string) : Prop :=
  Js.toUpperCase a = Js.toUpperCase b.

(** Playwright's error for a locator that matched nothing within its
    timeout. *)
Definition is_timeout (e : JsError) : Prop := err_name e = "TimeoutError".

(** A request of one of the captured resource types. *)
Definition is_api (r : Request) : Prop := resourceType r ∈ API_RESOURCE_TYPES.

(** Two requests with the same method and the same url. *)
Definition same_call (r r' : Request) : Prop :=
  req_method r = req_method r' /\ req_url r = req_url r'.

(** A discovered record for the pair [(m, u)]. *)
Definition is_call (m u : string) (d : DiscoveredApi) : bool :=
  String.eqb (api_method d) m && String.eqb (api_url d) u.

(** A string without a space; an HTTP method is one. *)
Definition no_space (s : string) : Prop :=
  Js.all_chars (fun c => negb (Js.code c =? 32)%nat) s = true.

(** The [key] under which a discovered record was entered in [seen]. *)
Definition api_key (d : DiscoveredApi) : string :=
  api_method d +:+ " " +:+ api_url d.

(** The type names a schema inferred from an object may hold. *)
Definition schema_types : list string :=
  [ "string"; "number"; "boolean"; "array"; "object" ].

(** A name made of the characters [a-z], [0-9] and [_] only. *)
Definition name_chars (s : string) : Prop :=
  Js.all_chars is_name_char s = true.

(** A name made of the characters [a-z], [A-Z], [0-9] and [_] only. *)
Definition word_chars (s : string) : Prop :=
  Js.all_chars Js.is_word s = true.

(** The condition under which the loop over the buttons skips a button. *)
Definition skipped (formNames : gset string) (btn : ButtonRecord) : Prop :=
  btn_inForm btn = true /\
  base_name (btn_text btn) (btn_id btn) "" <> "" /\
  base_name (btn_text btn) (btn_id btn) "" ∈ formNames.

(** [is_api] as a test. *)
Definition is_api_b (r : Request) : bool :=
  bool_decide (resourceType r ∈ API_RESOURCE_TYPES).

(** What the capture handler keeps true of its state: the records have
    pairwise different keys, and [seen] holds exactly their keys. *)
Definition capture_inv (st : capture_state) : Prop :=
  NoDup (List.map api_key (fst st)) /\
  forall k, k ∈ snd st <-> k ∈ List.map api_key (fst st).

(** A field that the page [pg] lets [fill] fill: the locator is built and
    the fill succeeds. *)
Definition fillable (pg : PageHandle) (f : string * string) : Prop :=
  page_locator pg (fill_selector (Js.trim (fst f))) = None /\
  locator_fill pg (fill_locator (Js.trim (fst f))) (snd f) 8000%N = None.

(** The operation [fill] waits for on the field [f]. *)
Definition fill_await (f : string * string) : Awaited :=
  await_fill (fill_locator (Js.trim (fst f))) (snd f) 8000%N.

(** What an endpoint copies from its discovered record. *)
Definition endpoint_data (e : ApiEndpoint)
    : string * string * option (gmap string string) :=
  (ep_method e, ep_url e, ep_bodySchema e).

Definition discovered_data (d : DiscoveredApi)
    : string * string * option (gmap string string) :=
  (api_method d, api_url d, bodySchema d).

(** The list [options.discoveredApis] stands for. *)
Definition discovered_list (options : ApiOptions) : list DiscoveredApi :=
  match opt_discoveredApis options with Some apis => apis | None => [] end.

(** The endpoints of a contract, none when the key is absent. *)
Definition endpoint_list (c : ApiContract) : list ApiEndpoint :=
  match apiEndpoints c with Some eps => eps | None => [] end.

(** The markup Chromium delivers when every one of its steps goes through,
    the closing of the browser included. *)
Definition chromium_succeeds (w : FetchWorld) : option string :=
  match fw_launch w, fw_newPage w, fw_goto w, fw_content w, fw_close w with
  | None, None, None, Ok markup, None => Some markup
  | _, _, _, _, _ => None
  end.

Definition same_step (a b : FetchStep) : bool :=
  match a, b with
  | step_launch, step_launch | step_newPage, step_newPage
  | step_goto, step_goto | step_settle, step_settle
  | step_content, step_content | step_close, step_close
  | step_http_get, step_http_get | step_text, step_text => true
  | _, _ => false
  end.

(** How often the step [a] was taken. *)
Definition times (a : FetchStep) (t : list FetchStep) : nat :=
  length (List.filter (same_step a) t).

(** ** Sample requests *)

(** Two [POST]s to the same url with different bodies. *)
Definition search_red : Request :=
  mkRequest "fetch" "https://shop.example/api/search" "POST"
    (Returns (Some "{q:red}")) Throws [].

Definition search_blue : Request :=
  mkRequest "xhr" "https://shop.example/api/search" "POST"
    (Returns (Some "{q:blue}")) Throws [].

(** A request whose body is plain text, and one whose body is the JSON
    number [5]. *)
Definition text_request : Request :=
  mkRequest "fetch" "https://shop.example/api/log" "POST"
    (Returns (Some "hello")) Throws [].

Definition number_request : Request :=
  mkRequest "fetch" "https://shop.example/api/count" "POST"
    (Returns (Some "5")) (Returns (Some (JNumber "5"))) [].

(** A page load: a document request, then two API calls. *)
Definition page_request : Request :=
  mkRequest "document" "https://shop.example/" "GET" (Returns None) (Returns None) [].

(** ** Sample documents *)

(** [<form><input name="qty" type="number">
          <input name="agree" type="checkbox"></form>] *)
Definition number_checkbox_form : Dom :=
  [ Element "form" []
      [ Element "input" [ ("name", "qty"); ("type", "number") ] [];
        Element "input" [ ("name", "agree"); ("type", "checkbox") ] [] ] ].

(** [<form method="post"><input name="email" type="email" required>
          <button type="submit">Join</button></form>] *)
Definition join_form : Dom :=
  [ Element "form" [ ("method", "post") ]
      [ Element "input" [ ("name", "email"); ("type", "email"); ("required", "") ] [];
        Element "button" [ ("type", "submit") ] [ Text "Join" ] ] ].

(** [<form method="put"></form>] *)
Definition put_form : Dom := [ Element "form" [ ("method", "put") ] [] ].

(** A page of [n] empty forms. *)
Definition forms_page (n : nat) : Dom := repeat (Element "form" [] []) n.

(** A live page with the given markup on which no locator ever matches. *)
Definition dead_page (doc : Dom) : PageHandle :=
  mkPage (Ok doc) "about:blank" (fun _ => None)
    (fun _ _ => Some (mkError "TimeoutError" "locator.click: Timeout exceeded."))
    (fun _ _ _ => Some (mkError "TimeoutError" "locator.fill: Timeout exceeded.")).

(** [<form></form><form></form>] *)
Definition two_forms : Dom := [ Element "form" [] []; Element "form" [] [] ].

(** [<button>about</button><a href="about"></a><a href="about"></a>] *)
Definition button_and_two_links : Dom :=
  [ Element "button" [] [ Text "about" ];
    Element "a" [ ("href", "about") ] [];
    Element "a" [ ("href", "about") ] [] ].

(** [<a href="/home">Home</a><a href="/about"></a><a href="/cart">Cart</a>
    <a href="/about"></a><a href="/help">Help</a>] *)
Definition links_around : Dom :=
  [ Element "a" [ ("href", "/home") ] [ Text "Home" ];
    Element "a" [ ("href", "/about") ] [];
    Element "a" [ ("href", "/cart") ] [ Text "Cart" ];
    Element "a" [ ("href", "/about") ] [];
    Element "a" [ ("href", "/help") ] [ Text "Help" ] ].

(** The no-break space U+00A0, the ideographic space U+3000, the letter
    U+00E9 and the character U+1F600, as their bytes. *)
Definition nbsp : string :=
  String (ascii_of_nat 194) (String (ascii_of_nat 160) "").

Definition ideographic_space : string :=
  String (ascii_of_nat 227) (String (ascii_of_nat 128) (String (ascii_of_nat 128) "")).

Definition e_acute : string :=
  String (ascii_of_nat 195) (String (ascii_of_nat 169) "").

Definition grinning_face : string :=
  String (ascii_of_nat 240) (String (ascii_of_nat 159)
    (String (ascii_of_nat 152) (String (ascii_of_nat 128) ""))).

(** [n] times the string [s]. *)
Fixpoint repeat_string (n : nat) (s : string) : string :=
  match n with
  | O => ""
  | S k => s +:+ repeat_string k s
  end.

(** [<a href="/cart">Cart</a><button>Buy now</button>
    <form><input name="q" placeholder="Search"><input type="hidden" name="t">
    </form>] *)
Definition shop_page : Dom :=
  [ Element "a" [ ("href", "/cart") ] [ Text "Cart" ];
    Element "button" [] [ Text "Buy now" ];
    Element "form" []
      [ Element "input" [ ("name", "q"); ("placeholder", "Search") ] [];
        Element "input" [ ("type", "hidden"); ("name", "t") ] [] ] ].

(** ** Sample urls *)

(** A parser that knows one url and rejects everything else. *)
Definition known_pathname (url : string) : option string :=
  if String.eqb url "https://shop.example/api/search" then Some "/api/search"
  else None.

Definition search_api : DiscoveredApi :=
  mkApi "POST" "https://shop.example/api/search" None None None.

(** ** Sample worlds *)

(** Chromium cannot be launched and the server answers [404]. *)
Definition offline_world : FetchWorld :=
  mkFetchWorld (Some (mkError "Error" "browserType.launch: Executable missing"))
    None None (Ok "") None (Ok (false, 404)) (Ok "").

(** A model that answers at once, and one that asks for a snapshot on every
    turn. *)
Definition answering_world : Agent.World :=
  Agent.mkWorld
    (fun _ => Ok (Some (Agent.mkReply (Some "  Done.  ") None)))
    (fun _ => None)
    (fun _ _ => Ok (Agent.mkToolResult None false "{}")).

Definition looping_world : Agent.World :=
  Agent.mkWorld
    (fun _ =>
       Ok (Some (Agent.mkReply None
                   (Some [ Agent.mkToolCall (Some "call_1")
                             (Some "browser_snapshot") (Some "{}") ]))))
    (fun _ => Some (JObject []))
    (fun _ _ => Ok (Agent.mkToolResult (Some "ok") false "{}")).

(** ** Sample browsers and pages *)

(** A live page on which every locator matches and every action succeeds. *)
Definition live_page (doc : Dom) : PageHandle :=
  mkPage (Ok doc) "https://shop.example/" (fun _ => None)
    (fun _ _ => None) (fun _ _ _ => None).

(** A live page that refuses the value [XXL] in any field. *)
Definition picky_page : PageHandle :=
  mkPage (Ok []) "https://shop.example/" (fun _ => None)
    (fun _ _ => None)
    (fun _ v _ =>
       if String.eqb v "XXL"
       then Some (mkError "TimeoutError" "locator.fill: Timeout exceeded.")
       else None).

(** A browser that opens the page [pg] and closes without trouble, and the
    Chromium that launches it. *)
Definition good_browser (pg : PageHandle) : BrowserHandle :=
  mkBrowser (Ok (mkContext (Ok pg))) None.

Definition good_chromium (pg : PageHandle) : Chromium :=
  mkChromium (fun _ _ => Ok (good_browser pg)).

(** A browser that launches but cannot open a context, and one that cannot
    be closed. *)
Definition contextless_browser : BrowserHandle :=
  mkBrowser (Throw (mkError "Error" "browser.newContext: Target closed")) None.

Definition contextless_chromium : Chromium :=
  mkChromium (fun _ _ => Ok contextless_browser).

Definition stuck_browser : BrowserHandle :=
  mkBrowser (Ok (mkContext (Ok (live_page []))))
    (Some (mkError "Error" "browser.close: Connection lost")).

(** * Properties *)

(** ** Strings *)

Lemma string_length_app (a b : string) :
  String.length (a +:+ b) = String.length a + String.length b.
Proof. induction a as [|c a IH]; simpl; [reflexivity | now rewrite IH]. Qed.

Lemma map_chars_app f (a b : string) :
  Js.map_chars f (a +:+ b) = Js.map_chars f a +:+ Js.map_chars f b.
Proof. induction a as [|c a IH]; simpl; [reflexivity | now rewrite IH]. Qed.

Lemma lower_char_idem (c : ascii) : Js.lower_char (Js.lower_char c) = Js.lower_char c.
Proof. destruct c as [[] [] [] [] [] [] [] []]; reflexivity. Qed.

Lemma toLowerCase_idem (s : string) : lower_fixed (Js.toLowerCase s).
Proof.
  unfold lower_fixed, Js.toLowerCase.
  induction s as [|c s IH]; simpl; [reflexivity|].
  now rewrite lower_char_idem, IH.
Qed.

Lemma lower_fixed_app (a b : string) :
  lower_fixed a -> lower_fixed b -> lower_fixed (a +:+ b).
Proof.
  unfold lower_fixed, Js.toLowerCase. intros Ha Hb.
  now rewrite map_chars_app, Ha, Hb.
Qed.

Lemma lower_fixed_uint (d : Decimal.uint) :
  lower_fixed (NilEmpty.string_of_uint d).
Proof.
  unfold lower_fixed, Js.toLowerCase.
  induction d as [|d IH|d IH|d IH|d IH|d IH|d IH|d IH|d IH|d IH|d IH]; simpl;
    [reflexivity | rewrite IH; reflexivity ..].
Qed.

Lemma lower_fixed_of_nat (n : nat) : lower_fixed (Js.of_nat n).
Proof. apply lower_fixed_uint. Qed.

Lemma of_nat_inj (i j : nat) : Js.of_nat i = Js.of_nat j -> i = j.
Proof.
  unfold Js.of_nat. intros H.
  assert (Some (Nat.to_uint i) = Some (Nat.to_uint j)) as E
    by now rewrite <- !NilEmpty.usu, H.
  injection E as E.
  now rewrite <- (Unsigned.of_to i), <- (Unsigned.of_to j), E.
Qed.

Lemma slug_lower_fixed (s : string) : lower_fixed (slug s).
Proof. apply toLowerCase_idem. Qed.

Lemma is_empty_true (s : string) : Js.is_empty s = true <-> s = "".
Proof. destruct s; simpl; split; congruence. Qed.

Lemma is_empty_false (s : string) : Js.is_empty s = false <-> s <> "".
Proof. destruct s; simpl; split; congruence. Qed.

(** ** [ensureUnique] *)

Lemma candidate_inj (b : string) (i j : nat) :
  candidate b i = candidate b j -> i = j.
Proof.
  unfold candidate. intros H.
  apply String.app_inj in H. apply String.app_inj in H.
  now apply of_nat_inj.
Qed.

Lemma candidate_neq_base (b : string) (i : nat) : candidate b i <> b.
Proof.
  unfold candidate. intros H.
  apply (f_equal String.length) in H.
  rewrite !string_length_app in H. simpl in H. lia.
Qed.

Lemma candidate_lower_fixed (b : string) (i : nat) :
  lower_fixed b -> lower_fixed (candidate b i).
Proof.
  intros Hb. unfold candidate.
  apply lower_fixed_app; [assumption|].
  apply lower_fixed_app; [reflexivity | apply lower_fixed_of_nat].
Qed.

(** When the loop gives up, every name it looked at was taken. *)
Lemma ensureUnique_loop_None fuel b (used : gset string) name n :
  ensureUnique_loop fuel b used name n = None ->
  (name ∈ used) /\ forall i, i < fuel -> candidate b (n + i) ∈ used.
Proof.
  revert name n. induction fuel as [|fuel IH]; intros name n; simpl.
  - destruct (decide (name ∈ used)); [|discriminate].
    intros _. split; [assumption | intros i Hi; lia].
  - destruct (decide (name ∈ used)) as [Hin|]; [|discriminate].
    intros H. apply IH in H as [H0 Hrest].
    split; [assumption|]. intros [|i] Hi.
    + now rewrite Nat.add_0_r.
    + replace (n + S i) with (S n + i) by lia. apply Hrest. lia.
Qed.

(** The name the loop returns is free, and it is the start name or one of
    the numbered candidates. *)
Lemma ensureUnique_loop_Some fuel b (used : gset string) name n x :
  ensureUnique_loop fuel b used name n = Some x ->
  (x ∉ used) /\ (x = name \/ exists k, n <= k /\ x = candidate b k).
Proof.
  revert name n. induction fuel as [|fuel IH]; intros name n; simpl.
  - destruct (decide (name ∈ used)); [discriminate|].
    intros [= <-]. auto.
  - destruct (decide (name ∈ used)) as [Hin|Hout].
    + intros H. apply IH in H as [H0 [->|(k & Hk & ->)]].
      * split; [assumption|]. right. exists n. auto.
      * split; [assumption|]. right. exists k. split; [lia | reflexivity].
    + intros [= <-]. auto.
Qed.

(** No more than [size used] names can be taken among pairwise different
    candidates. *)
Lemma candidates_not_all_used b (used : gset string) :
  ~ ((b ∈ used) /\ forall i, i < size used -> candidate b (2 + i) ∈ used).
Proof.
  intros [Hb Hall].
  set (l := b :: List.map (fun i => candidate b (2 + i)) (seq 0 (size used))).
  assert (NoDup l) as Hnd.
  { unfold l. apply NoDup_cons. split.
    - rewrite list_elem_of_In, in_map_iff. intros (i & Hi & _).
      now apply candidate_neq_base in Hi.
    - apply NoDup_ListNoDup, Finite.Injective_map_NoDup; [|apply seq_NoDup].
      intros i j Hij. apply candidate_inj in Hij. lia. }
  assert (list_to_set l ⊆ used) as Hsub.
  { intros x. rewrite elem_of_list_to_set. unfold l.
    rewrite elem_of_cons, list_elem_of_In, in_map_iff.
    intros [->|(i & <- & Hi)]; [assumption|].
    apply in_seq in Hi. apply Hall. lia. }
  apply subseteq_size in Hsub.
  rewrite (size_list_to_set l Hnd) in Hsub.
  unfold l in Hsub. simpl in Hsub. rewrite length_map, length_seq in Hsub. lia.
Qed.

(** The loop of [ensureUnique] ends: a free name is always found. *)
Lemma ensureUnique_total b (used : gset string) :
  exists name, ensureUnique b used = Some (name, {[ name ]} ∪ used).
Proof.
  unfold ensureUnique.
  destruct (ensureUnique_loop (size used) b used b 2) as [name|] eqn:E.
  - eauto.
  - apply ensureUnique_loop_None in E. now apply candidates_not_all_used in E.
Qed.

Lemma ensureUnique_spec b (used : gset string) name used' :
  ensureUnique b used = Some (name, used') ->
  used' = {[ name ]} ∪ used /\ (name ∉ used) /\
  (name = b \/ exists k, 2 <= k /\ name = candidate b k).
Proof.
  unfold ensureUnique.
  destruct (ensureUnique_loop (size used) b used b 2) as [x|] eqn:E; [|discriminate].
  intros [= <- <-]. apply ensureUnique_loop_Some in E as [H1 H2]. auto.
Qed.

(** A free base name is taken as it is. *)
Lemma ensureUnique_free b (used : gset string) :
  b ∉ used -> ensureUnique b used = Some (b, {[ b ]} ∪ used).
Proof.
  intros Hb. unfold ensureUnique.
  destruct (size used); simpl; destruct (decide (b ∈ used)); try contradiction;
    reflexivity.
Qed.

(** A taken base name whose first numbered candidate is free becomes that
    candidate. *)
Lemma ensureUnique_second b (used : gset string) :
  b ∈ used -> candidate b 2 ∉ used ->
  ensureUnique b used = Some (candidate b 2, {[ candidate b 2 ]} ∪ used).
Proof.
  intros Hb Hc. unfold ensureUnique.
  destruct (size used) as [|k] eqn:Hs.
  - apply size_empty_inv in Hs. exfalso. set_solver.
  - simpl. destruct (decide (b ∈ used)); [|contradiction].
    destruct k; simpl; destruct (decide (candidate b 2 ∈ used));
      try contradiction; reflexivity.
Qed.

Lemma ensureUnique_lower_fixed b (used : gset string) name used' :
  lower_fixed b -> ensureUnique b used = Some (name, used') -> lower_fixed name.
Proof.
  intros Hb H. apply ensureUnique_spec in H as (_ & _ & [->|(k & _ & ->)]).
  - assumption.
  - now apply candidate_lower_fixed.
Qed.

(** ** The loops of [generateContract] *)

Lemma pushes_trans st1 st2 st3 : pushes st1 st2 -> pushes st2 st3 -> pushes st1 st3.
Proof.
  induction 1 as [|st base name used' a st' He Hb Ha Hep _ IH]; [trivial|].
  intros H3. eapply pushes_step; eauto.
Qed.

Lemma pushes_one st base name used' a :
  ensureUnique base (snd st) = Some (name, used') ->
  lower_fixed base -> action a = name -> endpoint_ok a ->
  pushes st (fst st ++ [a], used').
Proof. intros. eapply pushes_step; eauto using pushes_refl. Qed.

Lemma base_name_lower_fixed text id fallback :
  lower_fixed fallback -> lower_fixed (base_name text id fallback).
Proof.
  intros Hf. unfold base_name.
  destruct (negb (Js.is_empty text) && negb (Js.is_empty (slug text)));
    [apply slug_lower_fixed|].
  destruct id as [i|]; [|assumption].
  destruct (negb (Js.is_empty i) && negb (Js.is_empty (slug i)));
    [apply slug_lower_fixed | assumption].
Qed.

Lemma pathSlug_lower_fixed href : lower_fixed (pathSlug href).
Proof.
  unfold pathSlug, Js.or_default.
  destruct (Js.is_empty _); [reflexivity | apply slug_lower_fixed].
Qed.

Lemma endpoint_ok_mk name m sch d :
  endpoint_ok (mkAction name m (AGENT_PREFIX +:+ "/" +:+ name) sch d).
Proof. reflexivity. Qed.

Lemma buttons_loop_pushes fn bs : forall idx st st',
  buttons_loop fn idx bs st = Some st' -> pushes st st'.
Proof.
  induction bs as [|btn r IH]; intros idx st st'; simpl.
  - intros [= <-]. apply pushes_refl.
  - destruct (btn_inForm btn && _ && _); [apply IH|].
    destruct (ensureUnique _ (snd st)) as [[name used']|] eqn:E; [|discriminate].
    intros H. apply IH in H.
    eapply pushes_step; [exact E | | | | exact H];
      [ | reflexivity | apply endpoint_ok_mk].
    destruct (negb (Js.is_empty _)).
    + apply base_name_lower_fixed. reflexivity.
    + apply lower_fixed_app; [reflexivity | apply lower_fixed_of_nat].
Qed.

Lemma buttons_loop_total fn bs : forall idx st,
  exists st', buttons_loop fn idx bs st = Some st'.
Proof.
  induction bs as [|btn r IH]; intros idx st; simpl; [eauto|].
  destruct (btn_inForm btn && _ && _); [apply IH|].
  destruct (ensureUnique_total
              (if negb (Js.is_empty (base_name (btn_text btn) (btn_id btn) ""))
               then base_name (btn_text btn) (btn_id btn) ""
               else "button_" +:+ Js.of_nat (idx + 1)) (snd st)) as [name ->].
  apply IH.
Qed.

Lemma links_loop_pushes ls : forall st st',
  links_loop ls st = Some st' -> pushes st st'.
Proof.
  induction ls as [|l r IH]; intros st st'; simpl.
  - intros [= <-]. apply pushes_refl.
  - destruct (ensureUnique _ (snd st)) as [[name used']|] eqn:E; [|discriminate].
    intros H. apply IH in H.
    eapply pushes_step; [exact E | | | | exact H];
      [ | reflexivity | apply endpoint_ok_mk].
    apply base_name_lower_fixed, pathSlug_lower_fixed.
Qed.

Lemma links_loop_total ls : forall st, exists st', links_loop ls st = Some st'.
Proof.
  induction ls as [|l r IH]; intros st; simpl; [eauto|].
  destruct (ensureUnique_total
              (base_name (link_text l) (link_id l) (pathSlug (link_href l)))
              (snd st)) as [name ->].
  apply IH.
Qed.

Lemma names_app a b : names (a ++ b) = names a ++ names b.
Proof. apply List.map_app. Qed.

(** Pushing under allocated names keeps the invariant. *)
Lemma pushes_inv F st st' : pushes st st' -> synth_inv F st -> synth_inv F st'.
Proof.
  induction 1 as [|st base name used' a st' He Hb Ha Hep _ IH]; [trivial|].
  intros [(E & HE & HndE & HdisE) Hused Hend Hlow]. apply IH. clear IH.
  apply ensureUnique_spec in He as (-> & Hfree & Hshape).
  assert (name ∉ names (fst st)) as Hfresh by now rewrite <- Hused.
  split; simpl.
  - exists (E ++ [name]). rewrite names_app, HE, <- app_assoc. simpl. rewrite Ha.
    split; [reflexivity|]. rewrite HE in Hfresh. split.
    + apply NoDup_app. split; [assumption|]. split; [|apply NoDup_singleton].
      intros x Hx. rewrite list_elem_of_singleton. intros ->.
      apply Hfresh, elem_of_app. now right.
    + intros x. rewrite elem_of_app, list_elem_of_singleton.
      intros [Hx| ->]; [now apply HdisE|].
      intros HF. apply Hfresh, elem_of_app. now left.
  - intros x. rewrite names_app, elem_of_union, elem_of_singleton, elem_of_app.
    simpl. rewrite list_elem_of_singleton, Ha, Hused. tauto.
  - apply Forall_app. split; [assumption|]. now constructor.
  - intros HF. rewrite names_app. apply Forall_app. split; [now apply Hlow|].
    simpl. constructor; [|constructor]. rewrite Ha.
    destruct Hshape as [->|(k & _ & ->)]; [assumption|].
    now apply candidate_lower_fixed.
Qed.

Lemma forms_loop_endpoint fs : forall idx, Forall endpoint_ok (forms_loop idx fs).
Proof.
  induction fs as [|f r IH]; intros idx; simpl; constructor; [reflexivity | apply IH].
Qed.

(** The invariant holds when the loop over the buttons starts. *)
Lemma synth_inv_init fs :
  synth_inv (names (forms_loop 0 fs))
    (forms_loop 0 fs, list_to_set (List.map action (forms_loop 0 fs))).
Proof.
  split; simpl.
  - exists []. rewrite app_nil_r. split; [reflexivity|].
    split; [apply NoDup_nil_2|]. intros x Hx. inversion Hx.
  - intros x. now rewrite elem_of_list_to_set.
  - apply forms_loop_endpoint.
  - trivial.
Qed.

Lemma before_links_total g : exists st, before_links g = Some st.
Proof. apply buttons_loop_total. Qed.

Lemma before_links_inv g st :
  before_links g = Some st -> synth_inv (names (forms_loop 0 (forms g))) st.
Proof.
  intros H. apply buttons_loop_pushes in H.
  eapply pushes_inv; [exact H | apply synth_inv_init].
Qed.

Lemma synthesize_total g : exists acts, synthesize g = Some acts.
Proof.
  unfold synthesize.
  destruct (before_links_total g) as [st ->].
  destruct (links_loop_total (links g) st) as [st' ->]. eauto.
Qed.

Lemma synthesize_inv g acts :
  synthesize g = Some acts ->
  exists used, synth_inv (names (forms_loop 0 (forms g))) (acts, used).
Proof.
  unfold synthesize.
  destruct (before_links g) as [st|] eqn:Eb; [|discriminate].
  destruct (links_loop (links g) st) as [[acts' used]|] eqn:El; [|discriminate].
  intros [= <-]. exists used.
  apply links_loop_pushes in El.
  eapply pushes_inv; [exact El | now apply before_links_inv].
Qed.

Lemma generateContract_Some html options :
  exists acts, synthesize (extractInteractiveGroups (parseDOM html)) = Some acts /\
    generateContract html options =
      Some (mkContract (inferContractName (parseDOM html) (context options)) acts).
Proof.
  destruct (synthesize_total (extractInteractiveGroups (parseDOM html))) as [acts H].
  exists acts. split; [assumption|]. unfold generateContract. now rewrite H.
Qed.

(** ** Names of the form actions *)

Lemma or_default_nonempty a d : d <> "" -> Js.is_empty (Js.or_default a d) = false.
Proof.
  intros Hd. unfold Js.or_default.
  destruct a as [s|]; [destruct (Js.is_empty s) eqn:E; [|exact E] |];
    now apply is_empty_false.
Qed.

Lemma extract_form_label f : Js.is_empty (form_submitLabel (extract_form f)) = false.
Proof. apply or_default_nonempty. discriminate. Qed.

Lemma forms_loop_lower fs :
  Forall (fun f => Js.is_empty (form_submitLabel f) = false) fs ->
  forall idx, Forall lower_fixed (names (forms_loop idx fs)).
Proof.
  induction 1 as [|f r Hf _ IH]; intros idx; simpl; constructor; [|apply IH].
  unfold form_actionName. rewrite Hf. apply slug_lower_fixed.
Qed.

Lemma form_names_lower html : Forall lower_fixed (form_names html).
Proof.
  apply forms_loop_lower. simpl.
  apply Forall_forall. intros f Hf. apply list_elem_of_In, in_map_iff in Hf.
  destruct Hf as (h & <- & _). apply extract_form_label.
Qed.

Lemma map_lower_fixed l : Forall lower_fixed l -> List.map Js.toLowerCase l = l.
Proof. induction 1 as [|x l Hx _ IH]; simpl; [reflexivity | now rewrite Hx, IH]. Qed.

(** ** Claims about [generateContract] *)

(** C10.  [generateContract] returns a contract for every parsed document
    and every options value, and each action of its [actions] list has the
    endpoint ["/agent/"] followed by that action's own name. *)
Theorem generateContract_endpoints (html : Dom) (options : Options) :
  exists c, generateContract html options = Some c /\
            Forall (fun a => endpoint a = "/agent/" +:+ action a) (actions c).
Proof.
  destruct (generateContract_Some html options) as (acts & Hs & Hc).
  eexists. split; [exact Hc|]. simpl.
  apply synthesize_inv in Hs as [used Hinv]. apply (inv_endpoint _ _ Hinv).
Qed.

(** C1, as the code has it.  [generateContract] returns a contract whose
    action names are the names of the form actions followed by the names of
    the button and link actions; the button and link names are pairwise
    different and different from every form name, also when case is ignored.
    So all names of the contract are pairwise different, case ignored,
    exactly when the names of the form actions are. *)
Theorem generateContract_names_unique (html : Dom) (options : Options) :
  exists c rest,
    generateContract html options = Some c /\
    names (actions c) = form_names html ++ rest /\
    NoDup (List.map Js.toLowerCase rest) /\
    (forall x y, x ∈ rest -> y ∈ form_names html ->
                 Js.toLowerCase x <> Js.toLowerCase y) /\
    (NoDup (List.map Js.toLowerCase (form_names html)) <->
     NoDup (List.map Js.toLowerCase (names (actions c)))).
Proof.
  destruct (generateContract_Some html options) as (acts & Hs & Hc).
  apply synthesize_inv in Hs as [used [(E & HE & Hnd & Hdis) _ _ Hlow]].
  simpl in HE, Hlow. fold (form_names html) in HE, Hlow.
  specialize (Hlow (form_names_lower html)).
  pose proof (form_names_lower html) as HF.
  assert (Forall lower_fixed E) as HEl.
  { rewrite HE in Hlow. now apply Forall_app in Hlow as [_ ?]. }
  exists (mkContract (inferContractName (parseDOM html) (context options)) acts), E.
  split; [exact Hc|]. simpl. split; [exact HE|].
  rewrite (map_lower_fixed _ HEl), (map_lower_fixed _ HF), (map_lower_fixed _ Hlow).
  split; [exact Hnd|]. split.
  - intros x y Hx Hy.
    rewrite (proj1 (Forall_forall _ _) HEl x Hx), (proj1 (Forall_forall _ _) HF y Hy).
    intros ->. now apply (Hdis y).
  - rewrite HE. split.
    + intros HndF. apply NoDup_app. split; [assumption|].
      split; [|assumption]. intros x Hx HxE. now apply (Hdis x).
    + intros Hall. now apply NoDup_app in Hall as [? _].
Qed.

(** C1, as stated, fails: two forms without a submit control both become an
    action named [submit]. *)
Lemma generateContract_names_clash :
  exists c, generateContract two_forms (mkOptions None) = Some c /\
            names (actions c) = ["submit"; "submit"] /\
            ~ NoDup (List.map Js.toLowerCase (names (actions c))).
Proof.
  destruct (generateContract two_forms (mkOptions None)) as [c|] eqn:E;
    [|vm_compute in E; discriminate].
  exists c. vm_compute in E. injection E as <-.
  split; [reflexivity|]. split; [reflexivity|].
  simpl. rewrite NoDup_cons. intros [Hin _]. apply Hin. constructor.
Qed.

Lemma base_name_unlabelled fallback : base_name "" None fallback = fallback.
Proof. reflexivity. Qed.

Lemma links_loop_shape ls : forall st st',
  links_loop ls st = Some st' ->
  exists added,
    fst st' = fst st ++ added /\
    Forall (fun a => method a = "GET" /\ schema a = ∅) added /\
    length added = length ls.
Proof.
  induction ls as [|l r IH]; intros st st'; simpl.
  - intros [= <-]. exists []. rewrite app_nil_r.
    split; [reflexivity|]. split; [constructor | reflexivity].
  - destruct (ensureUnique _ (snd st)) as [[name used']|]; [|discriminate].
    intros H. apply IH in H as (added & Hacc & Hall & Hlen). simpl in Hacc.
    eexists (_ :: added). split; [rewrite Hacc, <- app_assoc; reflexivity|].
    split; [constructor; [split; reflexivity | assumption] | simpl; lia].
Qed.

Lemma links_loop_app a : forall b st,
  links_loop (a ++ b) st
  = match links_loop a st with
    | Some st' => links_loop b st'
    | None => None
    end.
Proof.
  induction a as [|l a IH]; intros b st; simpl; [reflexivity|].
  destruct (ensureUnique _ (snd st)) as [[name used']|]; [apply IH | reflexivity].
Qed.

(** An unlabelled link whose path slug is free takes it as its name. *)
Lemma links_loop_free l r st :
  link_text l = "" -> link_id l = None ->
  pathSlug (link_href l) ∉ snd st ->
  links_loop (l :: r) st
  = links_loop r
      (fst st ++ [ mkAction (pathSlug (link_href l)) "GET"
                     ("/agent/" +:+ pathSlug (link_href l)) ∅ (link_href l) ],
       {[ pathSlug (link_href l) ]} ∪ snd st).
Proof.
  intros Ht Hi Hx. simpl. rewrite Ht, Hi, base_name_unlabelled.
  now rewrite (ensureUnique_free _ _ Hx).
Qed.

(** An unlabelled link whose path slug [X] is taken while [X_2] is free is
    named [X_2]. *)
Lemma links_loop_second l r st :
  link_text l = "" -> link_id l = None ->
  pathSlug (link_href l) ∈ snd st ->
  pathSlug (link_href l) +:+ "_2" ∉ snd st ->
  links_loop (l :: r) st
  = links_loop r
      (fst st ++ [ mkAction (pathSlug (link_href l) +:+ "_2") "GET"
                     ("/agent/" +:+ pathSlug (link_href l) +:+ "_2") ∅
                     (link_href l) ],
       {[ pathSlug (link_href l) +:+ "_2" ]} ∪ snd st).
Proof.
  intros Ht Hi Hx Hx2. simpl. rewrite Ht, Hi, base_name_unlabelled.
  now rewrite (ensureUnique_second _ _ Hx Hx2).
Qed.

(** The links up to the one of index [j], when the one of index [i] comes
    before it. *)
Lemma links_up_to {A} (L : list A) (i j : nat) (x y : A) :
  i < j -> L !! i = Some x -> L !! j = Some y ->
  exists B C, firstn j L = firstn i L ++ x :: B /\ L = firstn j L ++ y :: C.
Proof.
  intros Hij Hi Hj.
  exists (firstn (j - S i) (skipn (S i) L)), (skipn (S j) L).
  split; [|symmetry; now apply take_drop_middle].
  rewrite <- (take_drop_middle L i x Hi) at 1.
  pose proof (lookup_lt_Some _ _ _ Hi) as Hlen.
  rewrite firstn_app, length_take, Nat.min_l by lia.
  rewrite take_take, Nat.min_r by lia.
  replace (j - i) with (S (j - S i)) by lia. reflexivity.
Qed.

(** C8, as the code has it.  Take two links without text and without id
    whose hrefs reduce to the same path slug [X], the first at index [i] and
    the second at index [j] among the links of the page, whatever else the
    page holds.  If no action pushed before the first is named [X], and no
    action pushed before the second is named [X_2], then the contract has,
    at the places of the two links, a [GET] action named [X] and a [GET]
    action named [X_2]. *)
Theorem two_links_same_slug (html : Dom) (options : Options) (i j : nat)
    (l1 l2 : LinkRecord) (st1 st2 : synth_state) :
  i < j ->
  links (extractInteractiveGroups (parseDOM html)) !! i = Some l1 ->
  links (extractInteractiveGroups (parseDOM html)) !! j = Some l2 ->
  link_text l1 = "" -> link_id l1 = None ->
  link_text l2 = "" -> link_id l2 = None ->
  pathSlug (link_href l2) = pathSlug (link_href l1) ->
  before_link (extractInteractiveGroups (parseDOM html)) i = Some st1 ->
  pathSlug (link_href l1) ∉ names (fst st1) ->
  before_link (extractInteractiveGroups (parseDOM html)) j = Some st2 ->
  pathSlug (link_href l1) +:+ "_2" ∉ names (fst st2) ->
  exists c, generateContract html options = Some c /\
    actions c !! length (fst st1)
      = Some (mkAction (pathSlug (link_href l1)) "GET"
                ("/agent/" +:+ pathSlug (link_href l1)) ∅ (link_href l1)) /\
    actions c !! length (fst st2)
      = Some (mkAction (pathSlug (link_href l1) +:+ "_2") "GET"
                ("/agent/" +:+ pathSlug (link_href l1) +:+ "_2") ∅ (link_href l2)).
Proof.
  intros Hij Hi Hj Ht1 Hi1 Ht2 Hi2 Hsame H1 Hx H2 Hx2.
  set (g := extractInteractiveGroups (parseDOM html)) in *.
  set (X := pathSlug (link_href l1)) in *.
  unfold before_link in H1, H2.
  destruct (before_links g) as [st0|] eqn:Hb; [|discriminate].
  pose proof (before_links_inv _ _ Hb) as Hinv0.
  destruct (links_up_to (links g) i j l1 l2 Hij Hi Hj) as (B & C & Hj' & HL).
  (* the first link *)
  assert (synth_inv (names (forms_loop 0 (forms g))) st1) as Hinv1
    by (eapply pushes_inv; [apply (links_loop_pushes _ _ _ H1) | exact Hinv0]).
  rewrite <- (inv_used _ _ Hinv1) in Hx.
  rewrite Hj', links_loop_app, H1 in H2.
  rewrite (links_loop_free l1 B st1 Ht1 Hi1 Hx) in H2. fold X in H2.
  pose proof (links_loop_pushes _ _ _ H2) as Hp2.
  destruct (links_loop_shape _ _ _ H2) as (addedB & HaccB & _ & _).
  cbn [fst] in HaccB.
  (* the second link *)
  assert (synth_inv (names (forms_loop 0 (forms g))) st2) as Hinv2.
  { eapply pushes_inv; [|exact Hinv1].
    eapply pushes_step with (base := X) (name := X)
                            (a := mkAction X "GET" ("/agent/" +:+ X) ∅ (link_href l1));
      [apply (ensureUnique_free _ _ Hx) | apply pathSlug_lower_fixed | reflexivity
      | apply endpoint_ok_mk | exact Hp2]. }
  assert (X ∈ snd st2) as HX2.
  { apply (inv_used _ _ Hinv2). rewrite HaccB, !names_app. simpl.
    rewrite !elem_of_app, list_elem_of_singleton. left. right. reflexivity. }
  rewrite <- (inv_used _ _ Hinv2) in Hx2.
  (* the whole loop *)
  unfold generateContract, synthesize. fold g. rewrite Hb.
  rewrite HL, links_loop_app.
  rewrite Hj', links_loop_app, H1, (links_loop_free l1 B st1 Ht1 Hi1 Hx). fold X.
  rewrite H2.
  rewrite (links_loop_second l2 C st2 Ht2 Hi2); rewrite ?Hsame; fold X;
    [|exact HX2|exact Hx2].
  destruct (links_loop_total C
              (fst st2 ++ [ mkAction (X +:+ "_2") "GET" ("/agent/" +:+ X +:+ "_2") ∅
                              (link_href l2) ],
               {[ X +:+ "_2" ]} ∪ snd st2)) as [st3 H3].
  rewrite H3. destruct (links_loop_shape _ _ _ H3) as (addedC & HaccC & _ & _).
  cbn [fst] in HaccC.
  eexists. split; [reflexivity|]. cbn [actions]. rewrite HaccC. split.
  - rewrite HaccB, <- !app_assoc. now apply list_lookup_middle.
  - rewrite <- app_assoc. now apply list_lookup_middle.
Qed.

(** The instance of the theorem above for [links_around]: the links at
    indices 1 and 3, with a labelled link before, between and after them. *)
Lemma two_links_same_slug_witness :
  links (extractInteractiveGroups (parseDOM links_around))
    = [ mkLink "/home" "Home" None None; mkLink "/about" "" None None;
        mkLink "/cart" "Cart" None None; mkLink "/about" "" None None;
        mkLink "/help" "Help" None None ] /\
  (names ∘ fst) <$> before_link (extractInteractiveGroups (parseDOM links_around)) 1
    = Some [ "home" ] /\
  (names ∘ fst) <$> before_link (extractInteractiveGroups (parseDOM links_around)) 3
    = Some [ "home"; "_about"; "cart" ] /\
  exists c, generateContract links_around (mkOptions None) = Some c /\
    actions c !! 1 = Some (mkAction "_about" "GET" "/agent/_about" ∅ "/about") /\
    actions c !! 3 = Some (mkAction "_about_2" "GET" "/agent/_about_2" ∅ "/about").
Proof.
  split; [reflexivity|]. split; [reflexivity|]. split; [reflexivity|].
  apply (two_links_same_slug links_around (mkOptions None) 1 3
           (mkLink "/about" "" None None) (mkLink "/about" "" None None)
           ([ mkAction "home" "GET" "/agent/home" ∅ "Home" ], {[ "home" ]} ∪ ∅)
           ([ mkAction "home" "GET" "/agent/home" ∅ "Home";
              mkAction "_about" "GET" "/agent/_about" ∅ "/about";
              mkAction "cart" "GET" "/agent/cart" ∅ "Cart" ],
            {[ "cart" ]} ∪ ({[ "_about" ]} ∪ ({[ "home" ]} ∪ ∅))));
    try reflexivity; try lia.
  - simpl. rewrite list_elem_of_singleton. discriminate.
  - simpl. rewrite !elem_of_cons, elem_of_nil. intros [H|[H|[H|[]]]]; discriminate H.
Defined.

(** C8, as stated, fails: a button labelled [about] comes first and takes
    the name, so the two links with path slug [about] are named [about_2] and
    [about_3]. *)
Lemma two_links_same_slug_shifted :
  links (extractInteractiveGroups (parseDOM button_and_two_links))
    = [ mkLink "about" "" None None; mkLink "about" "" None None ] /\
  pathSlug "about" = "about" /\
  exists c, generateContract button_and_two_links (mkOptions None) = Some c /\
    List.map (fun a => (action a, method a)) (actions c)
      = [ ("about", "POST"); ("about_2", "GET"); ("about_3", "GET") ].
Proof.
  split; [reflexivity|]. split; [reflexivity|].
  destruct (generateContract button_and_two_links (mkOptions None)) as [c|] eqn:E;
    [|vm_compute in E; discriminate].
  exists c. vm_compute in E. injection E as <-.
  split; reflexivity.
Qed.

(** ** Claims about [extractInteractiveGroups] *)

Lemma field_raw_type_cases inp :
  field_raw_type inp = "select" \/ field_raw_type inp = "text".
Proof.
  unfold field_raw_type.
  destruct (Js.truthy _ || String.eqb _ "select"); [left | right]; reflexivity.
Qed.

(** Whatever its [type] attribute says, an extracted field has the schema
    type [string]. *)
Lemma extract_field_type inp f : f ∈ extract_field inp -> field_type f = "string".
Proof.
  unfold extract_field.
  destruct (Cheerio.attr "name" (self inp)) as [name|]; [|intros H; inversion H].
  destruct (Js.is_empty name); [intros H; inversion H|].
  rewrite list_elem_of_singleton. intros ->. simpl.
  destruct (field_raw_type_cases (self inp)) as [-> | ->]; reflexivity.
Qed.

(** C2.  The table of [inputTypeToSchema] sends [number] to [number] and
    [checkbox] to [boolean], but the fields that [extractInteractiveGroups]
    extracts from a [number] input and a [checkbox] input both get the type
    [string]: the table is never asked about the [type] attribute. *)
Theorem number_and_checkbox_extracted_as_string :
  inputTypeToSchema "number" = "number" /\
  inputTypeToSchema "checkbox" = "boolean" /\
  List.map form_inputs (forms (extractInteractiveGroups number_checkbox_form))
    = [ [ mkField "qty" "string" false; mkField "agree" "string" false ] ].
Proof. repeat split; reflexivity. Qed.

(** C3, as the code has it.  A form whose [method] attribute is missing or
    empty, or equal to [get] when case is ignored, is extracted with the
    method [GET]; a form with any other [method] value is extracted with the
    method [POST]. *)
Theorem form_method_GET_or_POST (f : handle) :
  (Js.truthy (Cheerio.attr "method" (self f)) = false ->
   form_method (extract_form f) = "GET") /\
  (forall m, Cheerio.attr "method" (self f) = Some m -> m <> "" ->
             same_ignoring_case m "get" ->
             form_method (extract_form f) = "GET") /\
  (forall m, Cheerio.attr "method" (self f) = Some m -> m <> "" ->
             ~ same_ignoring_case m "get" ->
             form_method (extract_form f) = "POST").
Proof.
  unfold extract_form, same_ignoring_case. simpl.
  destruct (Cheerio.attr "method" (self f)) as [m|]; simpl.
  - repeat split.
    + intros Hm. apply negb_false_iff in Hm. now rewrite Hm.
    + intros m' [= <-] Hne Hget. apply is_empty_false in Hne.
      rewrite Hne, Hget. reflexivity.
    + intros m' [= <-] Hne Hget. apply is_empty_false in Hne. rewrite Hne.
      destruct (String.eqb_spec (Js.toUpperCase m) "GET") as [E|E];
        [now elim Hget | reflexivity].
  - repeat split; try reflexivity; intros m' [=].
Qed.

(** C3, as stated, fails: a form with [method="put"] is extracted with the
    method [POST]. *)
Lemma put_form_is_POST :
  List.map form_method (forms (extractInteractiveGroups put_form)) = ["POST"].
Proof. reflexivity. Qed.

(** ** Claims about the browser session *)

(** C9.  [launch] with a browser already open returns
    [{ ok: true, message: 'Browser already open' }], waits for no operation
    of Playwright (so no second browser is launched), and leaves [browser]
    and [page] as they were. *)
Theorem launch_again (chromium : Chromium) (options : LaunchOptions)
    (b : BrowserHandle) (p : option PageHandle) :
  launch chromium options (mkSession (Some b) p)
    = (Ok (mkMessage true "Browser already open"), mkSession (Some b) p, []).
Proof. reflexivity. Qed.

(** C5.  Without a page, [click] and [fill] throw the error
    [Browser not launched. Call browser_launch first.] with the module
    variables untouched and without waiting for any operation of Playwright.
    With a page, when the locator matches nothing and Playwright's timeout
    error comes back, that error is the one thrown, and it is not the
    [Browser not launched] error. *)
Theorem click_fill_before_launch :
  (forall b d,
     click d (mkSession b None) = (Throw NOT_LAUNCHED, mkSession b None, [])) /\
  (forall b id v,
     fill id v (mkSession b None) = (Throw NOT_LAUNCHED, mkSession b None, [])) /\
  (forall b pg d e,
     Js.trim (Js.or_default d "") <> "" ->
     locator_click pg (click_locator pg (Js.trim (Js.or_default d ""))) 10000%N
       = Some e ->
     is_timeout e ->
     click d (mkSession b (Some pg))
       = (Throw e, mkSession b (Some pg),
          [ await_click (click_locator pg (Js.trim (Js.or_default d ""))) 10000%N ])
     /\ e <> NOT_LAUNCHED) /\
  (forall b pg id v e,
     page_locator pg (fill_selector (Js.trim id)) = None ->
     locator_fill pg (fill_locator (Js.trim id)) v 8000%N = Some e ->
     is_timeout e ->
     fill id v (mkSession b (Some pg))
       = (Throw e, mkSession b (Some pg),
          [ await_fill (fill_locator (Js.trim id)) v 8000%N ])
     /\ e <> NOT_LAUNCHED).
Proof.
  split; [reflexivity|]. split; [reflexivity|]. split.
  - intros b pg d e Hd Hclick Htimeout. split.
    + unfold click, bind, require_page, get_page. simpl.
      apply is_empty_false in Hd. rewrite Hd. simpl.
      unfold bind, await_unit, await. now rewrite Hclick.
    + intros ->. discriminate Htimeout.
  - intros b pg id v e Hloc Hfill Htimeout. split.
    + unfold fill, bind, require_page, get_page. simpl. rewrite Hloc. simpl.
      unfold bind, await_unit, await. now rewrite Hfill.
    + intros ->. discriminate Htimeout.
Qed.

(** The last two parts of the theorem above apply to a real page. *)
Example click_fill_on_dead_page :
  click (Some "Buy") (mkSession None (Some (dead_page [])))
    = (Throw (mkError "TimeoutError" "locator.click: Timeout exceeded."),
       mkSession None (Some (dead_page [])),
       [ await_click (click_fallback "Buy") 10000%N ]) /\
  fill "email" "a@b.c" (mkSession None (Some (dead_page [])))
    = (Throw (mkError "TimeoutError" "locator.fill: Timeout exceeded."),
       mkSession None (Some (dead_page [])),
       [ await_fill (fill_locator "email") "a@b.c" 8000%N ]).
Proof. split; reflexivity. Qed.

Lemma firstn_length_le {A} (n : nat) (l : list A) : length (firstn n l) <= n.
Proof. rewrite length_firstn. lia. Qed.

(** [getSnapshot] on a session whose page delivers the markup [doc]. *)
Lemma getSnapshot_with_page b pg doc :
  page_content pg = Ok doc ->
  getSnapshot (mkSession b (Some pg))
  = (Ok (mkSnapshot (page_url pg)
           (Js.or_default
              (Some (Js.trim (Cheerio.all_text (Cheerio.select Cheerio.sel_title doc))))
              "")
           (firstn 50 (List.flat_map snapshot_button
                         (Cheerio.select Cheerio.sel_snapshot_buttons doc)))
           (firstn 80 (List.flat_map snapshot_link
                         (Cheerio.select Cheerio.sel_a_href doc)))
           (List.map snapshot_form (Cheerio.select Cheerio.sel_form doc))),
     mkSession b (Some pg), [await_content]).
Proof.
  intros Hc. unfold getSnapshot, bind, require_page, get_page, await. simpl.
  rewrite Hc. reflexivity.
Qed.

(** C7, as the code has it.  On a launched session whose page delivers its
    markup, [getSnapshot] returns a snapshot with at most 50 buttons and at
    most 80 links; its [forms] list has one entry for every form element of
    the markup. *)
Theorem getSnapshot_caps (s : Session) (pg : PageHandle) (doc : Dom) :
  page s = Some pg ->
  page_content pg = Ok doc ->
  exists snap,
    getSnapshot s = (Ok snap, s, [await_content]) /\
    length (snap_buttons snap) <= 50 /\
    length (snap_links snap) <= 80 /\
    length (snap_forms snap) = length (Cheerio.select Cheerio.sel_form doc).
Proof.
  intros Hp Hc. destruct s as [b p]. simpl in Hp. subst p.
  unfold getSnapshot, bind, require_page, get_page, await. simpl.
  rewrite Hc. simpl.
  eexists. split; [reflexivity|]. simpl.
  split; [apply firstn_length_le|]. split; [apply firstn_length_le|].
  apply length_map.
Qed.

(** The instance of the theorem above for a page of three forms. *)
Lemma getSnapshot_caps_witness :
  exists snap,
    getSnapshot (mkSession None (Some (dead_page (forms_page 3))))
      = (Ok snap, mkSession None (Some (dead_page (forms_page 3))), [await_content]) /\
    length (snap_buttons snap) <= 50 /\
    length (snap_links snap) <= 80 /\
    length (snap_forms snap) = 3.
Proof.
  apply (getSnapshot_caps (mkSession None (Some (dead_page (forms_page 3))))
           (dead_page (forms_page 3)) (forms_page 3)); reflexivity.
Defined.

Lemma select_forms_page n :
  length (Cheerio.select Cheerio.sel_form (forms_page n)) = n.
Proof.
  unfold Cheerio.select, forms_page.
  induction n as [|n IH]; simpl; [reflexivity | now rewrite IH].
Qed.

(** C7, as stated, fails: no constant bounds the number of forms of a
    snapshot; a page of [K + 1] forms has a snapshot of [K + 1] forms. *)
Lemma getSnapshot_forms_unbounded :
  ~ exists K, forall s snap t,
      getSnapshot s = (Ok snap, s, t) -> length (snap_forms snap) <= K.
Proof.
  intros [K HK].
  pose proof (getSnapshot_with_page None (dead_page (forms_page (S K)))
                (forms_page (S K)) eq_refl) as Hs.
  apply HK in Hs. cbn [snap_forms] in Hs.
  rewrite length_map, select_forms_page in Hs. lia.
Qed.

(** ** Claims about the capture of network calls *)

Lemma app_empty_l (s : string) : "" +:+ s = s.
Proof. reflexivity. Qed.

Lemma app_String_l (c : ascii) (a b : string) : String c a +:+ b = String c (a +:+ b).
Proof. reflexivity. Qed.

Lemma key_inj m1 : forall m2 u1 u2,
  no_space m1 -> no_space m2 ->
  m1 +:+ " " +:+ u1 = m2 +:+ " " +:+ u2 -> m1 = m2 /\ u1 = u2.
Proof.
  unfold no_space.
  induction m1 as [|c m1 IH]; intros [|c' m2] u1 u2 H1 H2;
    rewrite ?app_String_l, ?app_empty_l, ?app_String_l, ?app_empty_l;
    simpl in H1, H2.
  - intros [= ->]. auto.
  - intros [= <- _]. discriminate H2.
  - intros [= -> _]. discriminate H1.
  - intros [= <- Hrest].
    apply andb_prop in H1 as [_ H1]. apply andb_prop in H2 as [_ H2].
    destruct (IH m2 u1 u2 H1 H2 Hrest) as [-> ->]. auto.
Qed.

Lemma api_record_method r : api_method (api_record r) = req_method r.
Proof. unfold api_record. destruct (read_body r). reflexivity. Qed.

Lemma api_record_url r : api_url (api_record r) = req_url r.
Proof. unfold api_record. destruct (read_body r). reflexivity. Qed.

Lemma api_record_sample r :
  postDataSample (api_record r) = Js.or_null (fst (read_body r)).
Proof. unfold api_record. destruct (read_body r). reflexivity. Qed.

Lemma api_record_schema r :
  bodySchema (api_record r) = body_schema_of (snd (read_body r)).
Proof. unfold api_record. destruct (read_body r). reflexivity. Qed.

Lemma api_record_key r : api_key (api_record r) = request_key r.
Proof. unfold api_key, request_key. now rewrite api_record_method, api_record_url. Qed.

(** The case of [capture_fold] in which the handler returns early: what
    the rest of the events add is what the whole list adds. *)
Ltac skipped_event added Hacc Hadd Hseen :=
  exists added; split; [exact Hacc|]; split;
  [ let d := fresh "d" in let Hd := fresh "Hd" in
    intros d Hd; destruct (Hadd d Hd) as (? & ?r' & ? & ? & ?);
    split; [assumption|]; eexists; split; [right; eassumption | auto]
  | let k := fresh "k" in let Hk := fresh "Hk" in
    intros k Hk; destruct (Hseen k Hk) as [?|(?r' & ? & ? & ?)]; [now left|];
    right; eexists; split; [right; eassumption | auto] ].

(** What a run of the handler over [events] adds to a capture state: the
    records are appended, each for a captured request of [events] whose key
    was not seen before, and every key seen afterwards was seen before or is
    the key of a captured request of [events]. *)
Lemma capture_fold events : forall st,
  exists added,
    fst (fold_left on_requestfinished events st) = fst st ++ added /\
    (forall d, d ∈ added ->
       (api_key d ∉ snd st) /\ exists r, r ∈ events /\ is_api r /\ d = api_record r) /\
    (forall k, k ∈ snd (fold_left on_requestfinished events st) ->
       (k ∈ snd st) \/ exists r, r ∈ events /\ is_api r /\ request_key r = k).
Proof.
  induction events as [|r rest IH]; intros st; simpl.
  - exists []. rewrite app_nil_r. split; [reflexivity|]. split.
    + intros d Hd. inversion Hd.
    + auto.
  - destruct (IH (on_requestfinished st r)) as (added & Hacc & Hadd & Hseen).
    unfold on_requestfinished in *.
    destruct (bool_decide (resourceType r ∈ API_RESOURCE_TYPES)) eqn:Hapi;
      simpl in *; [|skipped_event added Hacc Hadd Hseen].
    apply bool_decide_eq_true in Hapi.
    destruct (bool_decide (request_key r ∈ snd st)) eqn:Hdup;
      simpl in *; [skipped_event added Hacc Hadd Hseen|].
    apply bool_decide_eq_false in Hdup.
    exists (api_record r :: added). split.
    { rewrite Hacc, <- app_assoc. reflexivity. }
    split.
    + intros d Hd. apply elem_of_cons in Hd as [->|Hd].
      * split; [now rewrite api_record_key|]. exists r. split; [now left|auto].
      * destruct (Hadd d Hd) as (Hk & r' & ? & ? & ?). split.
        -- intros Hin. apply Hk, elem_of_union_r, Hin.
        -- exists r'. split; [now right|auto].
    + intros k Hk. destruct (Hseen k Hk) as [Hin|(r' & ? & ? & ?)].
      * apply elem_of_union in Hin as [Hin|Hin]; [|now left].
        apply elem_of_singleton in Hin as ->.
        right. exists r. split; [now left|auto].
      * right. exists r'. split; [now right|auto].
Qed.

Lemma filter_none {A} (f : A -> bool) (l : list A) :
  (forall x, x ∈ l -> f x = false) -> List.filter f l = [].
Proof.
  induction l as [|x l IH]; intros H; simpl; [reflexivity|].
  rewrite (H x) by now left. apply IH. intros y Hy. apply H. now right.
Qed.

Lemma is_call_true m u d : is_call m u d = true <-> api_method d = m /\ api_url d = u.
Proof.
  unfold is_call. rewrite andb_true_iff.
  now rewrite !String.eqb_eq.
Qed.

(** C4.  Let [r] be the first captured ([xhr] or [fetch]) request of a
    capture window with its method and url.  Then the discovered records with
    that method and url are exactly one, the record of [r]; its
    [postDataSample] is the body of [r].  Any later request with the same
    method and url therefore adds nothing. *)
Theorem one_record_per_call (events : list Request) (content : Dom)
    (pre post : list Request) (r : Request) :
  Forall (fun x => no_space (req_method x)) events ->
  events = pre ++ r :: post ->
  is_api r ->
  (forall r', r' ∈ pre -> is_api r' -> ~ same_call r' r) ->
  List.filter (is_call (req_method r) (req_url r))
      (discoveredApis (fetchWithApiDiscovery events content))
    = [ api_record r ] /\
  postDataSample (api_record r) = Js.or_null (fst (read_body r)).
Proof.
  intros Htok -> Hapi Hfirst. split; [|apply api_record_sample].
  unfold fetchWithApiDiscovery. simpl. rewrite fold_left_app. simpl.
  destruct (capture_fold pre ([], ∅)) as (acc1 & Hacc1 & Hadd1 & Hseen1).
  simpl in Hacc1.
  set (st1 := fold_left on_requestfinished pre ([], ∅)) in *.
  assert (request_key r ∉ snd st1) as Hnew.
  { intros Hin. destruct (Hseen1 _ Hin) as [Hin'|(r' & Hr' & Hapi' & Hkey)].
    - simpl in Hin'. set_solver.
    - apply (Hfirst r' Hr' Hapi').
      apply Forall_forall with (x := r') in Htok as Hm';
        [|apply elem_of_app; now left].
      apply Forall_forall with (x := r) in Htok as Hm;
        [|apply elem_of_app; right; now left].
      apply (key_inj _ _ _ _ Hm' Hm Hkey). }
  assert (on_requestfinished st1 r
          = (fst st1 ++ [api_record r], {[ request_key r ]} ∪ snd st1)) as Hstep.
  { unfold on_requestfinished.
    rewrite (bool_decide_eq_true_2 _ Hapi). simpl.
    now rewrite (bool_decide_eq_false_2 _ Hnew). }
  rewrite Hstep.
  destruct (capture_fold post (fst st1 ++ [api_record r], {[ request_key r ]} ∪ snd st1))
    as (acc3 & Hacc3 & Hadd3 & _).
  rewrite Hacc3. simpl. rewrite Hacc1.
  rewrite !List.filter_app. simpl.
  rewrite (proj2 (is_call_true _ _ _)) by (now rewrite api_record_method, api_record_url).
  rewrite (filter_none _ acc1), (filter_none _ acc3); [reflexivity| |].
  - intros d Hd. destruct (Hadd3 d Hd) as (Hk & _). simpl in Hk.
    destruct (is_call (req_method r) (req_url r) d) eqn:E; [|reflexivity].
    apply is_call_true in E as [Em Eu]. exfalso. apply Hk.
    apply elem_of_union_l, elem_of_singleton.
    unfold api_key, request_key. now rewrite Em, Eu.
  - intros d Hd. destruct (Hadd1 d Hd) as (_ & r' & Hr' & Hapi' & ->).
    destruct (is_call (req_method r) (req_url r) (api_record r')) eqn:E; [|reflexivity].
    apply is_call_true in E as [Em Eu].
    rewrite api_record_method in Em. rewrite api_record_url in Eu.
    exfalso. apply (Hfirst r' Hr' Hapi'). split; assumption.
Qed.

(** The instance of the theorem above for two [POST]s to one url: the single
    record carries the body of the first. *)
Lemma one_record_per_call_witness :
  List.filter (is_call "POST" "https://shop.example/api/search")
      (discoveredApis (fetchWithApiDiscovery [search_red; search_blue] []))
    = [ api_record search_red ] /\
  postDataSample (api_record search_red) = Some "{q:red}".
Proof.
  apply (one_record_per_call [search_red; search_blue] [] [] [search_blue] search_red).
  - repeat constructor.
  - reflexivity.
  - unfold is_api, API_RESOURCE_TYPES. simpl.
    apply elem_of_union_r, elem_of_singleton. reflexivity.
  - intros r' Hr'. inversion Hr'.
Defined.

(** ** Claims about schema inference *)

Lemma value_schema_types v : value_schema v ∈ schema_types.
Proof.
  unfold schema_types.
  destruct v; cbn; rewrite !elem_of_cons; auto 10.
Qed.

Lemma obj_set_lookup {V} (k k' : string) (v : V) (o : gmap string V) :
  obj_set k v o !! k' =
    if decide (k = k' /\ k <> "__proto__") then Some v else o !! k'.
Proof.
  unfold obj_set. destruct (String.eqb_spec k "__proto__") as [->|Hk].
  - destruct (decide _) as [[_ H]|_]; [now elim H | reflexivity].
  - rewrite lookup_insert. destruct (decide (k = k')) as [->|Hne].
    + destruct (decide _) as [_|H]; [reflexivity | elim H; auto].
    + destruct (decide _) as [[H _]|_]; [contradiction | reflexivity].
Qed.

(** The loop of [inferSchemaFromBody] from the schema [acc] on. *)
Lemma infer_fold_lookup members : forall (acc : gmap string string) k t,
  fold_left (fun sch kv => obj_set (fst kv) (value_schema (snd kv)) sch) members acc
    !! k = Some t ->
  acc !! k = Some t \/
  exists v, (k, v) ∈ members /\ k <> "__proto__" /\ t = value_schema v.
Proof.
  induction members as [|[k0 v0] rest IH]; intros acc k t; simpl; [auto|].
  intros H. apply IH in H as [H|(v & Hin & Hk & ->)].
  - rewrite obj_set_lookup in H. destruct (decide _) as [[-> Hk]|_].
    + injection H as <-. right. exists v0. split; [now left | auto].
    + now left.
  - right. exists v. split; [now right | auto].
Qed.

Lemma infer_fold_keeps members : forall (acc : gmap string string) k,
  is_Some (acc !! k) ->
  is_Some (fold_left (fun sch kv => obj_set (fst kv) (value_schema (snd kv)) sch)
             members acc !! k).
Proof.
  induction members as [|[k0 v0] rest IH]; intros acc k H; simpl; [assumption|].
  apply IH. rewrite obj_set_lookup. destruct (decide _); [eauto | assumption].
Qed.

Lemma infer_fold_other members : forall (acc : gmap string string) k,
  k ∉ List.map fst members ->
  fold_left (fun sch kv => obj_set (fst kv) (value_schema (snd kv)) sch) members acc
    !! k = acc !! k.
Proof.
  induction members as [|[k0 v0] rest IH]; intros acc k H; simpl; [reflexivity|].
  simpl in H. rewrite not_elem_of_cons in H. destruct H as [Hne Hrest].
  rewrite (IH _ _ Hrest), obj_set_lookup.
  destruct (decide _) as [[-> _]|_]; [now elim Hne | reflexivity].
Qed.

Lemma infer_fold_present members : forall (acc : gmap string string) k v,
  (k, v) ∈ members -> k <> "__proto__" ->
  is_Some (fold_left (fun sch kv => obj_set (fst kv) (value_schema (snd kv)) sch)
             members acc !! k).
Proof.
  induction members as [|[k0 v0] rest IH]; intros acc k v Hin Hk; [inversion Hin|].
  simpl. apply elem_of_cons in Hin as [[= <- <-]|Hin].
  - apply infer_fold_keeps. rewrite obj_set_lookup.
    destruct (decide _) as [_|H]; [eauto | elim H; auto].
  - now apply (IH _ k v).
Qed.

Lemma infer_fold_exact members : forall (acc : gmap string string) k v,
  NoDup (List.map fst members) ->
  (k, v) ∈ members -> k <> "__proto__" ->
  fold_left (fun sch kv => obj_set (fst kv) (value_schema (snd kv)) sch) members acc
    !! k = Some (value_schema v).
Proof.
  induction members as [|[k0 v0] rest IH]; intros acc k v Hnd Hin Hk; [inversion Hin|].
  simpl in *. apply NoDup_cons in Hnd as [Hfresh Hnd].
  apply elem_of_cons in Hin as [[= <- <-]|Hin].
  - rewrite (infer_fold_other _ _ _ Hfresh), obj_set_lookup.
    destruct (decide _) as [_|H]; [reflexivity | elim H; auto].
  - now apply IH.
Qed.

(** C6, as the code has it.  A request whose body does not decode, or
    decodes to [null] or to a value that is not an object, gets no
    [bodySchema] at all ([inferSchemaFromBody] on its own would give such a
    value the single field [_body] with the value's [typeof]).  For a body
    that decodes to an object (an array counts, its keys being its indices),
    the schema holds only the type names [string], [number], [boolean],
    [array] and [object]; every top-level key other than [__proto__] has an
    entry, which is the type of its value, [string] for [null]. *)
Theorem body_schema_inference :
  (forall request,
     postDataJSON request = Throws -> bodySchema (api_record request) = None) /\
  (forall request v,
     postDataJSON request = Returns v ->
     (v = None \/ exists j, v = Some j /\ (j = JNull \/ typeof j <> "object")) ->
     bodySchema (api_record request) = None) /\
  (forall j, j = JNull \/ typeof j <> "object" ->
     inferSchemaFromBody j = {[ "_body" := typeof j ]}) /\
  (forall request pd j,
     postData request = Returns pd ->
     postDataJSON request = Returns (Some j) ->
     j <> JNull -> typeof j = "object" ->
     exists sch,
       bodySchema (api_record request) = Some sch /\
       (forall k t, sch !! k = Some t -> t ∈ schema_types) /\
       (forall k v, (k, v) ∈ entries j -> k <> "__proto__" -> is_Some (sch !! k)) /\
       (NoDup (List.map fst (entries j)) ->
        forall k v, (k, v) ∈ entries j -> k <> "__proto__" ->
                    sch !! k = Some (value_schema v)) /\
       value_schema JNull = "string").
Proof.
  split; [|split; [|split]].
  - intros request Hj. rewrite api_record_schema. unfold read_body. rewrite Hj.
    now destruct (postData request).
  - intros request v Hj Hv. rewrite api_record_schema. unfold read_body. rewrite Hj.
    destruct (postData request); [|reflexivity]. simpl.
    destruct Hv as [->|(j & -> & [->|Hj'])]; simpl; try reflexivity.
    destruct (String.eqb_spec (typeof j) "object") as [E|_]; [contradiction|].
    now rewrite andb_false_r.
  - intros j [->|Hj]; [reflexivity|]. unfold inferSchemaFromBody.
    destruct (String.eqb_spec (typeof j) "object") as [E|_]; [contradiction|].
    now rewrite orb_true_r.
  - intros request pd j Hp Hj Hnn Hobj. rewrite api_record_schema. unfold read_body.
    rewrite Hp, Hj. simpl. rewrite Hobj.
    assert (is_null j = false) as Hn by (destruct j; simpl; congruence).
    rewrite Hn. simpl. eexists. split; [reflexivity|].
    unfold inferSchemaFromBody. rewrite Hn, Hobj. simpl. repeat split.
    + intros k t H. apply infer_fold_lookup in H as [H|(v & _ & _ & ->)].
      * rewrite lookup_empty in H. discriminate.
      * apply value_schema_types.
    + intros k v. apply infer_fold_present.
    + intros Hnd k v. now apply infer_fold_exact.
Qed.

(** The spec's sample body
    [{"q":"red shoes","max":100,"tags":["a"],"active":true,"note":null}]. *)
Example sample_body_schema :
  inferSchemaFromBody
    (JObject [ ("q", JString "red shoes"); ("max", JNumber "100");
               ("tags", JArray [JString "a"]); ("active", JBool true);
               ("note", JNull) ])
  = {[ "q" := "string"; "max" := "number"; "tags" := "array";
       "active" := "boolean"; "note" := "string" ]}.
Proof. vm_compute. reflexivity. Qed.

(** C6, as stated, fails: a plain-text body and a body that is the JSON
    number [5] both leave the record without a [bodySchema]. *)
Lemma undecodable_body_has_no_schema :
  List.map bodySchema
    (discoveredApis (fetchWithApiDiscovery [text_request; number_request] []))
  = [ None; None ].
Proof. vm_compute. reflexivity. Qed.

(** ** Worked examples *)

Example slug_example : slug "  Add  to Cart! " = "_add_to_cart_".
Proof. reflexivity. Qed.

Example pathSlug_example :
  pathSlug "https://shop.example/products/red-shoes?size=40" = "_products_redshoessize40" /\
  pathSlug "?" = "link".
Proof. split; reflexivity. Qed.

Example ensureUnique_example :
  fst <$> ensureUnique "x" {[ "x"; "x_2"; "y" ]} = Some "x_3".
Proof. vm_compute. reflexivity. Qed.

(** The spec's sample form: one action [join], method [POST], schema
    [{email: "string"}]; the submit button inside the form adds no action of
    its own. *)
Example join_form_contract :
  generateContract join_form (mkOptions None)
  = Some (mkContract "pageActions"
            [ mkAction "join" "POST" "/agent/join" {[ "email" := "string" ]}
                "Submit: Join" ]).
Proof. vm_compute. reflexivity. Qed.

Example join_form_groups :
  extractInteractiveGroups join_form
  = mkGroups
      [ mkForm "" "POST" [ mkField "email" "string" true ] "Join" None None ]
      [ mkButton "Join" None None "button" "submit" true ]
      [].
Proof. reflexivity. Qed.

(** Text beyond ASCII: whitespace is the whole class of the language, and
    lengths and cuts count UTF-16 code units. *)
Example trim_all_whitespace :
  Js.trim (nbsp +:+ " a b" +:+ ideographic_space +:+ nbsp) = "a b" /\
  slug ("a" +:+ nbsp +:+ ideographic_space +:+ "b") = "a_b" /\
  Js.trim e_acute = e_acute.
Proof. repeat split; reflexivity. Qed.

Example length_in_code_units :
  Js.length e_acute = 1 /\ Js.length grinning_face = 2 /\
  Js.length (repeat_string 50 e_acute) = 50 /\
  Js.slice0 2 (e_acute +:+ "ab") = e_acute +:+ "a" /\
  Js.slice0 3 ("a" +:+ grinning_face +:+ "b") = "a" +:+ grinning_face /\
  Js.slice0 2 ("a" +:+ grinning_face +:+ "b")
    = String "a" (String (ascii_of_nat 237) (String (ascii_of_nat 160)
                    (String (ascii_of_nat 189) ""))).
Proof. repeat split; reflexivity. Qed.

(** The cut of [pathSlug] is at 30 code units: after the slash and sixteen
    letters [U+00E9] the last letter is still within it. *)
Example pathSlug_cut :
  pathSlug ("/" +:+ repeat_string 16 e_acute +:+ "a") = "_a" /\
  pathSlug ("/" +:+ repeat_string 16 e_acute +:+ "b") = "_b" /\
  pathSlug ("/" +:+ repeat_string 29 e_acute +:+ "a") = "_".
Proof. repeat split; reflexivity. Qed.

(** A button text of fifty letters [U+00E9] is within the eighty code units
    of a snapshot and is kept whole. *)
Example snapshot_button_text :
  snapshot_button (Handle (Element "button" [] [ Text (repeat_string 50 e_acute) ]) [])
  = [ mkSnapButton "button" (repeat_string 50 e_acute) "button" ].
Proof. reflexivity. Qed.

(** The [value] cheerio answers for an element that has none: a checkbox
    is ["on"], an [option] its text, anything else [undefined]. *)
Example attr_value_defaults :
  Cheerio.attr "value" (Element "input" [ ("type", "checkbox") ] []) = Some "on" /\
  Cheerio.attr "value" (Element "option" [] [ Text "Red" ]) = Some "Red" /\
  Cheerio.attr "value" (Element "input" [ ("type", "text") ] []) = None /\
  btn_text (extract_button
              (Handle (Element "input" [ ("type", "checkbox"); ("onclick", "go()") ] [])
                 [])) = "on".
Proof. repeat split; reflexivity. Qed.

Example click_selector_shapes :
  looksLikeSelector "#buy" = true /\
  looksLikeSelector "input[name=q]" = true /\
  looksLikeSelector "Button" = true /\
  looksLikeSelector "Add to cart" = false.
Proof. repeat split; reflexivity. Qed.

(** * Further properties of the code *)

(** ** [ensureUnique]: the first free candidate *)

Lemma ensureUnique_loop_first fuel b (used : gset string) : forall name n x,
  ensureUnique_loop fuel b used name n = Some x ->
  (x = name /\ (name ∉ used)) \/
  ((name ∈ used) /\ exists k, n <= k /\ x = candidate b k /\ (x ∉ used) /\
     forall j, n <= j < k -> candidate b j ∈ used).
Proof.
  induction fuel as [|fuel IH]; intros name n x; simpl.
  - destruct (decide (name ∈ used)); [discriminate|]. intros [= <-]. auto.
  - destruct (decide (name ∈ used)) as [Hin|Hout]; [|intros [= <-]; auto].
    intros H. right. split; [assumption|].
    apply IH in H as [[-> Hfree]|(Hn & k & Hk & -> & Hfree & Hbelow)].
    + exists n. repeat split; [lia | assumption | intros j Hj; lia].
    + exists k. repeat split; [lia | assumption |].
      intros j Hj. destruct (decide (j = n)) as [->|Hne]; [assumption|].
      apply Hbelow. lia.
Qed.

(** X1.  [ensureUnique] always returns: the name is free and is added to the
    set; it is the base name when that is free, and otherwise the candidate
    [base_k] with the least [k >= 2] that is free. *)
Theorem ensureUnique_first_free (b : string) (used : gset string) :
  exists name,
    ensureUnique b used = Some (name, {[ name ]} ∪ used) /\
    (name ∉ used) /\
    ((name = b) \/
     ((b ∈ used) /\ exists k, 2 <= k /\ name = candidate b k /\
        forall j, 2 <= j < k -> candidate b j ∈ used)).
Proof.
  destruct (ensureUnique_total b used) as [name H]. exists name.
  split; [exact H|]. unfold ensureUnique in H.
  destruct (ensureUnique_loop (size used) b used b 2) as [x|] eqn:E; [|discriminate].
  injection H as ->.
  apply ensureUnique_loop_first in E as [[-> Hfree]|(Hb & k & Hk & -> & Hfree & Hbelow)].
  - auto.
  - split; [assumption|]. right. split; [assumption|]. exists k. auto.
Qed.

(** ** The characters of names *)

Lemma all_chars_app p (a b : string) :
  Js.all_chars p (a +:+ b) = Js.all_chars p a && Js.all_chars p b.
Proof.
  induction a as [|c a IH]; rewrite ?app_empty_l, ?app_String_l; simpl;
    [reflexivity | now rewrite IH, andb_assoc].
Qed.

Lemma name_chars_app (a b : string) :
  name_chars a -> name_chars b -> name_chars (a +:+ b).
Proof. unfold name_chars. intros Ha Hb. now rewrite all_chars_app, Ha, Hb. Qed.

Lemma lower_word_char (c : ascii) :
  Js.is_word c = true -> is_name_char (Js.lower_char c) = true.
Proof. destruct c as [[] [] [] [] [] [] [] []]; simpl; intros H; vm_compute; (reflexivity || discriminate H). Qed.

Lemma name_chars_lower_strip (t : string) :
  name_chars (Js.toLowerCase (Js.strip_non_word t)).
Proof.
  unfold name_chars, Js.toLowerCase, Js.strip_non_word.
  induction t as [|c t IH]; simpl; [reflexivity|].
  destruct (Js.is_word c) eqn:E; [|exact IH].
  simpl. now rewrite (lower_word_char c E), IH.
Qed.

Lemma name_chars_slug (s : string) : name_chars (slug s).
Proof. apply name_chars_lower_strip. Qed.

Lemma name_chars_uint (d : Decimal.uint) : name_chars (NilEmpty.string_of_uint d).
Proof.
  unfold name_chars.
  induction d as [|d IH|d IH|d IH|d IH|d IH|d IH|d IH|d IH|d IH|d IH]; simpl;
    [reflexivity | exact IH ..].
Qed.

Lemma name_chars_of_nat (n : nat) : name_chars (Js.of_nat n).
Proof. apply name_chars_uint. Qed.

Lemma name_chars_candidate (b : string) (k : nat) :
  name_chars b -> name_chars (candidate b k).
Proof.
  intros Hb. unfold candidate. apply name_chars_app; [assumption|].
  apply name_chars_app; [reflexivity | apply name_chars_of_nat].
Qed.

Lemma base_name_cases text id fallback :
  (exists s, base_name text id fallback = slug s) \/
  base_name text id fallback = fallback.
Proof.
  unfold base_name.
  destruct (negb (Js.is_empty text) && negb (Js.is_empty (slug text))); [eauto|].
  destruct id as [i|]; [|auto].
  destruct (negb (Js.is_empty i) && negb (Js.is_empty (slug i))); eauto.
Qed.

(** A property of names that the three sources of base names have and that
    numbering keeps is a property of every name the loops allocate. *)
Section AllocatedNames.

Variable P : string -> Prop.
Hypothesis P_slug : forall s, P (slug s).
Hypothesis P_button : forall n, P ("button_" +:+ Js.of_nat n).
Hypothesis P_link : P "link".
Hypothesis P_candidate : forall b k, P b -> P (candidate b k).

Lemma ensureUnique_P b (used : gset string) name used' :
  P b -> ensureUnique b used = Some (name, used') -> P name.
Proof.
  intros Hb H. apply ensureUnique_spec in H as (_ & _ & [->|(k & _ & ->)]); auto.
Qed.

Lemma buttons_loop_P fn bs : forall idx st st',
  Forall P (names (fst st)) ->
  buttons_loop fn idx bs st = Some st' -> Forall P (names (fst st')).
Proof.
  induction bs as [|btn r IH]; intros idx st st' Hst; simpl.
  - now intros [= <-].
  - destruct (btn_inForm btn && _ && _); [now apply IH|].
    destruct (ensureUnique _ (snd st)) as [[name used']|] eqn:E; [|discriminate].
    apply IH. simpl. rewrite names_app. apply Forall_app. split; [assumption|].
    constructor; [|constructor]. simpl.
    eapply ensureUnique_P; [|exact E].
    destruct (Js.is_empty (base_name (btn_text btn) (btn_id btn) "")) eqn:Eb; simpl.
    + apply P_button.
    + destruct (base_name_cases (btn_text btn) (btn_id btn) "") as [[s ->]| Hf];
        [apply P_slug|]. rewrite Hf in Eb. discriminate Eb.
Qed.

Lemma links_loop_P ls : forall st st',
  Forall P (names (fst st)) ->
  links_loop ls st = Some st' -> Forall P (names (fst st')).
Proof.
  induction ls as [|l r IH]; intros st st' Hst; simpl.
  - now intros [= <-].
  - destruct (ensureUnique _ (snd st)) as [[name used']|] eqn:E; [|discriminate].
    apply IH. simpl. rewrite names_app. apply Forall_app. split; [assumption|].
    constructor; [|constructor]. simpl.
    eapply ensureUnique_P; [|exact E].
    destruct (base_name_cases (link_text l) (link_id l) (pathSlug (link_href l)))
      as [[s ->]| ->]; [apply P_slug|].
    unfold pathSlug, Js.or_default. destruct (Js.is_empty _); [apply P_link | apply P_slug].
Qed.

End AllocatedNames.

Lemma Forall_names (P : string -> Prop) acts :
  Forall P (names acts) -> Forall (fun a => P (action a)) acts.
Proof.
  induction acts as [|a r IH]; simpl; intros H; [constructor|].
  inversion H; subst. constructor; auto.
Qed.

Lemma button_name_chars (n : nat) : name_chars ("button_" +:+ Js.of_nat n).
Proof. apply name_chars_app; [reflexivity | apply name_chars_of_nat]. Qed.

Lemma forms_loop_chars fs :
  Forall (fun f => Js.is_empty (form_submitLabel f) = false) fs ->
  forall idx, Forall name_chars (names (forms_loop idx fs)).
Proof.
  induction 1 as [|f r Hf _ IH]; intros idx; simpl; constructor; [|apply IH].
  unfold form_actionName. rewrite Hf. apply name_chars_slug.
Qed.

Lemma extracted_forms_labelled html :
  Forall (fun f => Js.is_empty (form_submitLabel f) = false)
    (forms (extractInteractiveGroups (parseDOM html))).
Proof.
  simpl. apply Forall_forall. intros f Hf.
  apply list_elem_of_In, in_map_iff in Hf.
  destruct Hf as (h & <- & _). apply extract_form_label.
Qed.

Lemma form_names_chars html : Forall name_chars (form_names html).
Proof. apply forms_loop_chars, extracted_forms_labelled. Qed.

(** X2.  Every action name of a contract is made of the characters [a-z],
    [0-9] and [_] only. *)
Theorem generateContract_name_chars (html : Dom) (options : Options) :
  exists c, generateContract html options = Some c /\
            Forall (fun a => name_chars (action a)) (actions c).
Proof.
  destruct (generateContract_Some html options) as (acts & Hs & Hc).
  eexists. split; [exact Hc|]. simpl.
  unfold synthesize, before_links in Hs.
  destruct (buttons_loop _ 0 _ _) as [st|] eqn:Eb; [|discriminate].
  destruct (links_loop _ st) as [st'|] eqn:El; [|discriminate].
  injection Hs as <-.
  assert (Forall name_chars (names (fst st'))) as H.
  { refine (links_loop_P name_chars name_chars_slug eq_refl name_chars_candidate
              _ st st' _ El).
    refine (buttons_loop_P name_chars name_chars_slug button_name_chars
              name_chars_candidate _ _ _ _ st _ Eb).
    apply form_names_chars. }
  now apply Forall_names.
Qed.

(** ** The contract name *)

Lemma is_word_one_unit (c : ascii) :
  Js.is_word c = true -> Js.is_cont c = false /\ Js.units c = 1.
Proof.
  destruct c as [[] [] [] [] [] [] [] []]; vm_compute;
    intros H; try discriminate H; split; reflexivity.
Qed.

(** On a text of word characters a code unit is a byte. *)
Lemma slice0_word : forall s n,
  Js.all_chars Js.is_word s = true ->
  Js.all_chars Js.is_word (Js.slice0 n s) = true /\
  String.length (Js.slice0 n s) <= n.
Proof.
  induction s as [|c s IH]; intros n H; simpl; [split; [reflexivity | lia]|].
  simpl in H. apply andb_prop in H as [Hc Hs].
  destruct (is_word_one_unit c Hc) as [-> ->].
  destruct n as [|n]; simpl; [split; [reflexivity | lia]|].
  destruct (IH n Hs) as [Hw Hl]. rewrite Hc, Hw. split; [reflexivity | lia].
Qed.

Lemma all_chars_filter p (s : string) : Js.all_chars p (Js.filter_chars p s) = true.
Proof.
  induction s as [|c s IH]; simpl; [reflexivity|].
  destruct (p c) eqn:E; [simpl; now rewrite E | exact IH].
Qed.

(** X3.  The contract name is never empty and is made of letters, digits
    and underscores only; without a context hint it has at most 40
    characters. *)
Theorem inferContractName_identifier (doc : Dom) (contextHint : option string) :
  inferContractName doc contextHint <> "" /\
  word_chars (inferContractName doc contextHint) /\
  (contextHint = None -> String.length (inferContractName doc contextHint) <= 40).
Proof.
  unfold inferContractName, word_chars.
  set (title := Js.trim (Cheerio.all_text (Cheerio.select Cheerio.sel_title doc))).
  set (cut := Js.slice0 40 (Js.strip_non_word (Js.replace_space_runs title))).
  assert (Js.or_default (Some cut) "pageActions" <> "" /\
          Js.all_chars Js.is_word (Js.or_default (Some cut) "pageActions") = true /\
          String.length (Js.or_default (Some cut) "pageActions") <= 40) as Htitle.
  { unfold Js.or_default. destruct (Js.is_empty cut) eqn:E.
    - repeat split; [discriminate | simpl; lia].
    - split; [now apply is_empty_false|]. split.
      + apply slice0_word, all_chars_filter.
      + apply slice0_word, all_chars_filter. }
  assert ((if negb (Js.is_empty title)
           then Js.or_default (Some cut) "pageActions" else "pageActions") <> "" /\
          Js.all_chars Js.is_word
            (if negb (Js.is_empty title)
             then Js.or_default (Some cut) "pageActions" else "pageActions") = true /\
          String.length
            (if negb (Js.is_empty title)
             then Js.or_default (Some cut) "pageActions" else "pageActions") <= 40)
    as Hfallback.
  { destruct (negb (Js.is_empty title)); [exact Htitle|].
    repeat split; [discriminate | simpl; lia]. }
  destruct contextHint as [h|].
  - destruct (negb (Js.is_empty h) && negb (Js.is_empty (Js.replace_space_each h))
              && Js.all_chars Js.is_word (Js.replace_space_each h)) eqn:E.
    + apply andb_prop in E as [E Hw]. apply andb_prop in E as [_ Hne].
      apply negb_true_iff, is_empty_false in Hne.
      split; [assumption|]. split; [assumption | discriminate].
    + destruct Hfallback as (? & ? & ?). split; [assumption|].
      split; [assumption | discriminate].
  - destruct Hfallback as (? & ? & ?). auto.
Qed.

(** ** The layout of the contract *)

Lemma forms_loop_methods fs : forall idx,
  List.map method (forms_loop idx fs) = List.map form_method fs.
Proof. induction fs as [|f r IH]; intros idx; simpl; [reflexivity | now rewrite IH]. Qed.

Lemma buttons_loop_shape fn bs : forall idx st st',
  buttons_loop fn idx bs st = Some st' ->
  exists added,
    fst st' = fst st ++ added /\
    Forall (fun a => method a = "POST" /\ schema a = ∅) added /\
    length added <= length bs.
Proof.
  induction bs as [|btn r IH]; intros idx st st'; simpl.
  - intros [= <-]. exists []. rewrite app_nil_r.
    split; [reflexivity|]. split; [constructor | simpl; lia].
  - destruct (btn_inForm btn && _ && _).
    + intros H. apply IH in H as (added & ? & ? & ?). exists added.
      repeat split; [assumption | assumption | lia].
    + destruct (ensureUnique _ (snd st)) as [[name used']|]; [|discriminate].
      intros H. apply IH in H as (added & Hacc & Hall & Hlen). simpl in Hacc.
      eexists (_ :: added). split; [rewrite Hacc, <- app_assoc; reflexivity|].
      split; [constructor; [split; reflexivity | assumption] | simpl; lia].
Qed.

(** X4.  The actions of a contract come in three runs: one action per form,
    in document order and with the form's method; then at most one [POST]
    action with an empty schema per button; then exactly one [GET] action
    with an empty schema per link. *)
Theorem generateContract_layout (html : Dom) (options : Options) :
  exists c fa ba la,
    generateContract html options = Some c /\
    actions c = fa ++ ba ++ la /\
    List.map method fa
      = List.map form_method (forms (extractInteractiveGroups (parseDOM html))) /\
    Forall (fun a => method a = "POST" /\ schema a = ∅) ba /\
    length ba <= length (buttons (extractInteractiveGroups (parseDOM html))) /\
    Forall (fun a => method a = "GET" /\ schema a = ∅) la /\
    length la = length (links (extractInteractiveGroups (parseDOM html))).
Proof.
  destruct (generateContract_Some html options) as (acts & Hs & Hc).
  unfold synthesize, before_links in Hs.
  destruct (buttons_loop _ 0 _ _) as [st|] eqn:Eb; [|discriminate].
  destruct (links_loop _ st) as [st'|] eqn:El; [|discriminate].
  injection Hs as <-.
  apply buttons_loop_shape in Eb as (ba & Hb & Hball & Hblen).
  apply links_loop_shape in El as (la & Hl & Hlall & Hllen).
  simpl in Hb. eexists _, _, ba, la. split; [exact Hc|]. simpl.
  split; [rewrite Hl, Hb, <- app_assoc; reflexivity|].
  split; [apply forms_loop_methods|]. auto.
Qed.

(** ** Buttons that are skipped *)

Lemma buttons_loop_skipped fn bs :
  Forall (skipped fn) bs -> forall idx st, buttons_loop fn idx bs st = Some st.
Proof.
  induction 1 as [|btn r (Hin & Hne & Hmem) _ IH]; intros idx st; simpl; [reflexivity|].
  apply is_empty_false in Hne. rewrite Hin, Hne. simpl.
  rewrite (bool_decide_eq_true_2 _ Hmem). apply IH.
Qed.

(** X5.  When every button of a page sits in a form and reduces to the name
    of a form action (the submit buttons of the forms), the buttons add no
    action: the contract holds the form actions followed by one action per
    link. *)
Theorem submit_buttons_add_no_action (html : Dom) (options : Options) :
  Forall (skipped (formActionNames (forms (extractInteractiveGroups (parseDOM html)))))
    (buttons (extractInteractiveGroups (parseDOM html))) ->
  exists c la,
    generateContract html options = Some c /\
    actions c
      = forms_loop 0 (forms (extractInteractiveGroups (parseDOM html))) ++ la /\
    length la = length (links (extractInteractiveGroups (parseDOM html))).
Proof.
  intros Hskip.
  destruct (generateContract_Some html options) as (acts & Hs & Hc).
  unfold synthesize, before_links in Hs.
  rewrite (buttons_loop_skipped _ _ Hskip) in Hs.
  destruct (links_loop _ _) as [st'|] eqn:El; [|discriminate].
  injection Hs as <-.
  apply links_loop_shape in El as (la & Hl & _ & Hllen). simpl in Hl.
  eexists _, la. split; [exact Hc|]. auto.
Qed.

(** The instance of the theorem above for the form with a [Join] button. *)
Lemma submit_buttons_add_no_action_witness :
  exists c la,
    generateContract join_form (mkOptions None) = Some c /\
    actions c
      = forms_loop 0 (forms (extractInteractiveGroups (parseDOM join_form))) ++ la /\
    length la = 0.
Proof.
  apply (submit_buttons_add_no_action join_form (mkOptions None)).
  constructor; [|constructor].
  split; [reflexivity|]. split; [discriminate|].
  apply elem_of_list_to_set. left.
Defined.

(** ** The schema of a form action *)

Lemma buildSchema_fold inputs : forall (acc : gmap string (string * bool)) k,
  k <> "__proto__" ->
  fold_left
    (fun sch f => obj_set (field_name f) (field_type f, field_required f) sch)
    inputs acc !! k
  = match last (List.filter (fun f => String.eqb (field_name f) k) inputs) with
    | Some f => Some (field_type f, field_required f)
    | None => acc !! k
    end.
Proof.
  induction inputs as [|f r IH]; intros acc k Hk; simpl; [reflexivity|].
  rewrite (IH _ k Hk), obj_set_lookup.
  destruct (String.eqb_spec (field_name f) k) as [E|E].
  - rewrite last_cons.
    destruct (last (List.filter _ r)); [reflexivity|].
    destruct (decide _) as [_|H]; [reflexivity|].
    elim H. split; [assumption | congruence].
  - destruct (last (List.filter _ r)); [reflexivity|].
    destruct (decide _) as [[H _]|_]; [contradiction | reflexivity].
Qed.

Lemma buildSchema_fold_proto inputs : forall (acc : gmap string (string * bool)),
  fold_left
    (fun sch f => obj_set (field_name f) (field_type f, field_required f) sch)
    inputs acc !! "__proto__" = acc !! "__proto__".
Proof.
  induction inputs as [|f r IH]; intros acc; simpl; [reflexivity|].
  rewrite IH, obj_set_lookup.
  destruct (decide _) as [[H1 H2]|_]; [congruence | reflexivity].
Qed.

(** X6.  The schema of a form action maps a field name to the type of the
    last field of the form with that name, and has no entry for a name no
    field carries; the name [__proto__] never gets an entry. *)
Theorem form_schema_last_field (idx : nat) (form : FormRecord) (k : string) :
  schema (form_to_action idx form) !! k
  = if String.eqb k "__proto__" then None
    else field_type <$>
           last (List.filter (fun f => String.eqb (field_name f) k) (form_inputs form)).
Proof.
  unfold form_to_action, buildSchemaFromInputs. simpl. rewrite lookup_fmap.
  destruct (String.eqb_spec k "__proto__") as [->|Hk].
  - now rewrite buildSchema_fold_proto, lookup_empty.
  - rewrite (buildSchema_fold _ _ _ Hk), lookup_empty.
    now destruct (last _).
Qed.

(** ** What [extractInteractiveGroups] extracts *)

Lemma extract_field_named inp f : f ∈ extract_field inp -> field_name f <> "".
Proof.
  unfold extract_field.
  destruct (Cheerio.attr "name" (self inp)) as [name|]; [|intros H; inversion H].
  destruct (Js.is_empty name) eqn:E; [intros H; inversion H|].
  rewrite list_elem_of_singleton. intros ->. simpl. now apply is_empty_false.
Qed.

(** X7.  [extractInteractiveGroups] returns one form record per form
    element; every record has the method [GET] or [POST] and a submit label
    that is not empty, and every field it lists has a name. *)
Theorem extracted_forms_wellformed (doc : Dom) :
  length (forms (extractInteractiveGroups doc))
    = length (Cheerio.select Cheerio.sel_form doc) /\
  Forall (fun f =>
            (form_method f = "GET" \/ form_method f = "POST") /\
            form_submitLabel f <> "" /\
            Forall (fun i => field_name i <> "") (form_inputs f))
    (forms (extractInteractiveGroups doc)).
Proof.
  simpl. split; [apply length_map|].
  apply Forall_forall. intros f Hf. apply list_elem_of_In, in_map_iff in Hf.
  destruct Hf as (h & <- & _). split; [|split].
  - unfold extract_form. simpl. destruct (String.eqb _ "GET"); auto.
  - apply is_empty_false, extract_form_label.
  - apply Forall_forall. intros i Hi. unfold extract_form in Hi. simpl in Hi.
    apply list_elem_of_In, in_flat_map in Hi. destruct Hi as (inp & _ & Hi).
    apply list_elem_of_In in Hi. now apply extract_field_named in Hi.
Qed.

(** X8.  No extracted link has an empty href, a fragment href or a
    [javascript:] href, and there is at most one link per anchor with an
    href. *)
Theorem extracted_links_resolvable (doc : Dom) :
  length (links (extractInteractiveGroups doc))
    <= length (Cheerio.select Cheerio.sel_a_href doc) /\
  Forall (fun l =>
            link_href l <> "" /\
            Js.startsWith "#" (link_href l) = false /\
            is_script_href (link_href l) = false)
    (links (extractInteractiveGroups doc)).
Proof.
  simpl. split.
  - induction (Cheerio.select Cheerio.sel_a_href doc) as [|h hs IH]; simpl; [lia|].
    rewrite length_app. unfold extract_link at 1.
    destruct (_ || _ || _ || _); simpl; lia.
  - apply Forall_forall. intros l Hl. apply list_elem_of_In, in_flat_map in Hl.
    destruct Hl as (a & _ & Hl). unfold extract_link in Hl.
    destruct (Js.is_empty _) eqn:E1; [inversion Hl|].
    destruct (String.eqb _ "#") eqn:E2; [inversion Hl|].
    destruct (Js.startsWith "#" _) eqn:E3; [inversion Hl|].
    destruct (is_script_href _) eqn:E4; [inversion Hl|].
    simpl in Hl. destruct Hl as [<-|[]]. simpl.
    split; [now apply is_empty_false | auto].
Qed.

(** ** The capture of network calls: what is kept *)

Lemma capture_inv_step st r : capture_inv st -> capture_inv (on_requestfinished st r).
Proof.
  intros [Hnd Hseen]. unfold on_requestfinished.
  destruct (negb _); [now split|].
  destruct (bool_decide (request_key r ∈ snd st)) eqn:Hdup; [now split|].
  apply bool_decide_eq_false in Hdup. split; simpl.
  - rewrite List.map_app. simpl. rewrite api_record_key.
    apply NoDup_app. split; [assumption|]. split; [|apply NoDup_singleton].
    intros k Hk. rewrite list_elem_of_singleton. intros ->.
    apply Hdup, Hseen, Hk.
  - intros k. rewrite List.map_app, elem_of_union, elem_of_singleton, elem_of_app.
    simpl. rewrite list_elem_of_singleton, api_record_key, Hseen. tauto.
Qed.

Lemma capture_inv_fold events : forall st,
  capture_inv st -> capture_inv (fold_left on_requestfinished events st).
Proof.
  induction events as [|r rest IH]; intros st H; simpl; [assumption|].
  now apply IH, capture_inv_step.
Qed.

Lemma capture_inv_init : capture_inv ([], ∅).
Proof.
  split; simpl; [apply NoDup_nil_2|].
  intros k. split; intros H; [set_solver | inversion H].
Qed.

(** X9.  Whatever requests a capture window delivers, the discovered
    records have pairwise different dedup keys. *)
Theorem discovered_keys_unique (events : list Request) (content : Dom) :
  NoDup (List.map api_key (discoveredApis (fetchWithApiDiscovery events content))).
Proof. apply (capture_inv_fold events ([], ∅) capture_inv_init). Qed.

Lemma capture_seen_mono events : forall st k,
  k ∈ snd st -> k ∈ snd (fold_left on_requestfinished events st).
Proof.
  induction events as [|r rest IH]; intros st k Hk; simpl; [assumption|].
  apply IH. unfold on_requestfinished.
  destruct (negb _); [assumption|].
  destruct (bool_decide _); [assumption|]. simpl. now apply elem_of_union_r.
Qed.

Lemma capture_sees events : forall st r,
  r ∈ events -> is_api r ->
  request_key r ∈ snd (fold_left on_requestfinished events st).
Proof.
  induction events as [|r0 rest IH]; intros st r Hin Hapi; [inversion Hin|].
  simpl. apply elem_of_cons in Hin as [->|Hin]; [|now apply IH].
  apply capture_seen_mono. unfold on_requestfinished.
  rewrite (bool_decide_eq_true_2 _ Hapi). simpl.
  destruct (bool_decide (request_key r0 ∈ snd st)) eqn:E.
  - now apply bool_decide_eq_true in E.
  - simpl. apply elem_of_union_l, elem_of_singleton. reflexivity.
Qed.

(** X10.  Every discovered record is the record of an [xhr] or [fetch]
    request of the window, and every such request has a discovered record
    under its dedup key. *)
Theorem discovered_sound_and_complete (events : list Request) (content : Dom) :
  (forall d, d ∈ discoveredApis (fetchWithApiDiscovery events content) ->
     exists r, r ∈ events /\ is_api r /\ d = api_record r) /\
  (forall r, r ∈ events -> is_api r ->
     exists d, d ∈ discoveredApis (fetchWithApiDiscovery events content) /\
               api_key d = request_key r).
Proof.
  unfold fetchWithApiDiscovery. simpl. split.
  - intros d Hd. destruct (capture_fold events ([], ∅)) as (added & Hacc & Hadd & _).
    rewrite Hacc in Hd. simpl in Hd. now destruct (Hadd d Hd) as [_ ?].
  - intros r Hr Hapi.
    pose proof (capture_sees events ([], ∅) r Hr Hapi) as Hk.
    destruct (capture_inv_fold events ([], ∅) capture_inv_init) as [_ Hseen].
    apply Hseen, list_elem_of_In, in_map_iff in Hk. destruct Hk as (d & Hkey & Hd).
    exists d. split; [now apply list_elem_of_In | assumption].
Qed.

(** Events whose keys were all seen leave the capture state as it is. *)
Lemma capture_fold_seen more : forall st,
  (forall r, r ∈ more -> is_api r -> request_key r ∈ snd st) ->
  fold_left on_requestfinished more st = st.
Proof.
  induction more as [|r rest IH]; intros st H; simpl; [reflexivity|].
  assert (on_requestfinished st r = st) as ->.
  { unfold on_requestfinished.
    destruct (bool_decide (resourceType r ∈ API_RESOURCE_TYPES)) eqn:E; [|reflexivity].
    apply bool_decide_eq_true in E. simpl.
    now rewrite (bool_decide_eq_true_2 _ (H r (list_elem_of_here _ _) E)). }
  apply IH. intros r' Hr'. apply H. now right.
Qed.

(** X11.  Requests that repeat the key of an earlier captured request of the
    window add nothing, however many there are; replaying the whole window
    is one such case. *)
Theorem repeated_calls_add_nothing (events more : list Request) (content : Dom) :
  (forall r, r ∈ more -> is_api r ->
     exists r', r' ∈ events /\ is_api r' /\ request_key r' = request_key r) ->
  discoveredApis (fetchWithApiDiscovery (events ++ more) content)
    = discoveredApis (fetchWithApiDiscovery events content).
Proof.
  intros H. unfold fetchWithApiDiscovery. simpl. rewrite fold_left_app.
  rewrite capture_fold_seen; [reflexivity|].
  intros r Hr Hapi. destruct (H r Hr Hapi) as (r' & Hr' & Hapi' & <-).
  now apply capture_sees.
Qed.

(** The instance of the theorem above for a window played twice. *)
Lemma repeated_calls_add_nothing_witness :
  discoveredApis
    (fetchWithApiDiscovery
       ([page_request; search_red; search_blue]
          ++ [page_request; search_red; search_blue]) [])
  = discoveredApis (fetchWithApiDiscovery [page_request; search_red; search_blue] []).
Proof.
  apply (repeated_calls_add_nothing [page_request; search_red; search_blue]
           [page_request; search_red; search_blue] []).
  intros r Hr Hapi. exists r. auto.
Defined.

Lemma capture_fold_filter events : forall st,
  fold_left on_requestfinished (List.filter is_api_b events) st
    = fold_left on_requestfinished events st.
Proof.
  induction events as [|r rest IH]; intros st; simpl; [reflexivity|].
  unfold is_api_b at 1.
  destruct (bool_decide (resourceType r ∈ API_RESOURCE_TYPES)) eqn:E; simpl.
  - apply IH.
  - rewrite IH. f_equal. unfold on_requestfinished. now rewrite E.
Qed.

(** X12.  Requests of any other resource type (documents, scripts, images)
    have no effect on what is discovered: dropping them from the window gives
    the same records. *)
Theorem other_resources_ignored (events : list Request) (content : Dom) :
  discoveredApis (fetchWithApiDiscovery (List.filter is_api_b events) content)
    = discoveredApis (fetchWithApiDiscovery events content).
Proof. unfold fetchWithApiDiscovery. simpl. now rewrite capture_fold_filter. Qed.

(** ** The snapshot: what its entries look like *)

Lemma Forall_firstn {A} (P : A -> Prop) n (l : list A) :
  Forall P l -> Forall P (firstn n l).
Proof.
  intros H. revert n. induction H as [|x l Hx _ IH]; intros [|n]; simpl;
    constructor; auto.
Qed.

Lemma Forall_flat_map {A B} (P : B -> Prop) (f : A -> list B) (l : list A) :
  (forall x, Forall P (f x)) -> Forall P (List.flat_map f l).
Proof.
  intros H. induction l as [|x l IH]; simpl; [constructor|].
  apply Forall_app. auto.
Qed.

Lemma slice0_nonempty n s : s <> "" -> Js.slice0 (S n) s <> "".
Proof.
  destruct s as [|c r]; [congruence|]. intros _. simpl.
  destruct (Js.is_cont c); [discriminate|].
  destruct (Js.units c =? 2)%nat; [|discriminate].
  destruct n; [unfold Js.high_surrogate|]; discriminate.
Qed.

Lemma units_continuation (k : nat) :
  128 <= k < 192 -> Js.units (ascii_of_nat k) = 0.
Proof.
  intros Hk. unfold Js.units, Js.is_cont, Js.code.
  rewrite nat_ascii_embedding by lia.
  destruct (Nat.leb_spec 128 k); [|lia]. destruct (Nat.ltb_spec k 192); [|lia].
  reflexivity.
Qed.

Lemma length_high_surrogate c r : Js.length (Js.high_surrogate c r) = 1.
Proof.
  unfold Js.high_surrogate.
  set (b1 := match r with String x _ => Js.code x | _ => 128 end).
  set (b2 := match r with String _ (String y _) => Js.code y | _ => 128 end).
  set (h := Js.code c mod 8 * 256 + b1 mod 64 * 4 + b2 mod 64 / 16 - 64).
  assert (h < 1984) as Hh.
  { pose proof (Nat.mod_upper_bound (Js.code c) 8 ltac:(lia)).
    pose proof (Nat.mod_upper_bound b1 64 ltac:(lia)).
    assert (b2 mod 64 / 16 < 4)
      by (apply Nat.Div0.div_lt_upper_bound;
          pose proof (Nat.mod_upper_bound b2 64 ltac:(lia)); lia).
    unfold h. lia. }
  assert (h / 64 < 31) by (apply Nat.Div0.div_lt_upper_bound; lia).
  pose proof (Nat.mod_upper_bound h 64 ltac:(lia)).
  cbn [Js.length].
  rewrite (units_continuation (160 + h / 64)) by lia.
  rewrite (units_continuation (128 + h mod 64)) by lia.
  reflexivity.
Qed.

(** A cut at [n] code units leaves at most [n] code units. *)
Lemma length_slice0 : forall s n, Js.length (Js.slice0 n s) <= n.
Proof.
  induction s as [|c s IH]; intros n; simpl; [lia|].
  destruct (Js.is_cont c) eqn:Ec.
  - simpl. unfold Js.units. rewrite Ec. apply IH.
  - destruct n as [|n]; [simpl; lia|].
    destruct (Nat.eqb_spec (Js.units c) 2) as [E2|E2].
    + destruct n as [|n]; [rewrite length_high_surrogate; lia|].
      simpl. rewrite E2. specialize (IH n). lia.
    + simpl. specialize (IH n).
      assert (Js.units c = 1) as ->; [|lia].
      revert E2. unfold Js.units. rewrite Ec.
      destruct (240 <=? Js.code c)%nat; [congruence | reflexivity].
Qed.

Lemma snapshot_button_entries h :
  Forall (fun b => sb_text b <> "" /\ Js.length (sb_text b) <= 80)
    (snapshot_button h).
Proof.
  unfold snapshot_button. destruct (negb (Js.is_empty _)) eqn:E; constructor; [|constructor].
  cbn [sb_text]. split; [|apply length_slice0].
  now apply negb_true_iff, is_empty_false in E.
Qed.

Lemma snapshot_link_entries h :
  Forall (fun l => sl_text l <> "" /\ Js.length (sl_text l) <= 80 /\
                   sl_href l <> "" /\ Js.length (sl_href l) <= 200)
    (snapshot_link h).
Proof.
  unfold snapshot_link.
  destruct (Js.is_empty (Js.or_default _ "")) eqn:Eh; [constructor|].
  destruct (String.eqb _ "#"); [constructor|].
  destruct (Js.startsWith "javascript:" _); [constructor|]. cbn [orb].
  destruct (negb (Js.is_empty _)) eqn:E; constructor; [|constructor].
  cbn [sl_text sl_href]. split; [now apply negb_true_iff, is_empty_false in E|].
  split; [apply length_slice0|].
  split; [apply slice0_nonempty; now apply is_empty_false | apply length_slice0].
Qed.

Lemma or_default_id_nonempty a d : d <> "" -> Js.or_default a d <> "".
Proof. intros Hd. now apply is_empty_false, or_default_nonempty. Qed.

Lemma snapshot_input_entries h :
  Forall (fun i => si_name i <> "" /\ si_label i <> "" /\ si_type i <> "hidden")
    (snapshot_input h).
Proof.
  unfold snapshot_input.
  destruct (Cheerio.attr "name" (self h)) as [name|]; [|constructor].
  destruct (Js.is_empty name) eqn:En; [constructor|]. cbn [orb].
  destruct (String.eqb_spec
              (Js.toLowerCase (Js.or_default (Cheerio.attr "type" (self h)) ""))
              "hidden") as [|Hh]; constructor; [|constructor].
  cbn [si_name si_label si_type]. apply is_empty_false in En.
  split; [assumption|]. split; [now apply or_default_id_nonempty|].
  unfold Js.or_default in *.
  destruct (Cheerio.attr "type" (self h)) as [t|]; [|discriminate].
  destruct (Js.is_empty t); [discriminate | assumption].
Qed.

(** X13.  A snapshot that [getSnapshot] returns leaves the session as it
    was and waits only for the page's markup.  Every button has a text
    whose [length] (in UTF-16 code units, as JavaScript counts) is from 1 to
    80; every link has a text of length 1 to 80 and an href of length 1 to
    200; every form has a submit label, and every input listed has a name, a
    label and a type other than [hidden]. *)
Theorem getSnapshot_entries (s s' : Session) (snap : Snapshot) (t : list Awaited) :
  getSnapshot s = (Ok snap, s', t) ->
  s' = s /\ t = [await_content] /\
  Forall (fun b => sb_text b <> "" /\ Js.length (sb_text b) <= 80)
    (snap_buttons snap) /\
  Forall (fun l => sl_text l <> "" /\ Js.length (sl_text l) <= 80 /\
                   sl_href l <> "" /\ Js.length (sl_href l) <= 200)
    (snap_links snap) /\
  Forall (fun f => sf_submitLabel f <> "" /\
                   Forall (fun i => si_name i <> "" /\ si_label i <> "" /\
                                    si_type i <> "hidden") (sf_inputs f))
    (snap_forms snap).
Proof.
  destruct s as [b [pg|]]; [|discriminate].
  destruct (page_content pg) as [doc|e] eqn:Hc.
  - rewrite (getSnapshot_with_page b pg doc Hc). intros [= <- <- <-]. simpl.
    split; [reflexivity|]. split; [reflexivity|].
    split; [apply Forall_firstn, Forall_flat_map, snapshot_button_entries|].
    split; [apply Forall_firstn, Forall_flat_map, snapshot_link_entries|].
    apply Forall_forall. intros f Hf. apply list_elem_of_In, in_map_iff in Hf.
    destruct Hf as (h & <- & _). unfold snapshot_form. cbn [sf_submitLabel sf_inputs].
    split; [apply or_default_id_nonempty; discriminate|].
    apply Forall_flat_map, snapshot_input_entries.
  - unfold getSnapshot, bind, require_page, get_page, await. simpl. rewrite Hc.
    discriminate.
Qed.

(** The instance of the theorem above for the shop page. *)
Lemma getSnapshot_entries_witness :
  getSnapshot (mkSession None (Some (live_page shop_page)))
  = (Ok (mkSnapshot "https://shop.example/" ""
           [ mkSnapButton "button" "Buy now" "button" ]
           [ mkSnapLink "link" "Cart" "/cart" ]
           [ mkSnapForm "form" "Submit" [ mkSnapInput "q" "Search" "text" ] ]),
     mkSession None (Some (live_page shop_page)), [await_content]) /\
  Forall (fun b => sb_text b <> "" /\ Js.length (sb_text b) <= 80)
    [ mkSnapButton "button" "Buy now" "button" ].
Proof.
  split; [reflexivity|].
  exact (proj1 (proj2 (proj2
           (getSnapshot_entries (mkSession None (Some (live_page shop_page))) _ _ _
              eq_refl)))).
Defined.

(** ** Session operations: errors and composition *)

(** X14.  Without a page, [getSnapshot] and [fillForm] (even with no field
    to fill) throw the [Browser not launched] error without waiting for
    anything; with a page whose markup cannot be read, [getSnapshot] throws
    the page's error; and [fillForm] with no field succeeds with an empty
    list without touching the page.  None of them changes the session. *)
Theorem snapshot_and_fillForm_errors :
  (forall b, getSnapshot (mkSession b None)
             = (Throw NOT_LAUNCHED, mkSession b None, [])) /\
  (forall b fields, fillForm fields (mkSession b None)
                    = (Throw NOT_LAUNCHED, mkSession b None, [])) /\
  (forall b pg e, page_content pg = Throw e ->
     getSnapshot (mkSession b (Some pg))
     = (Throw e, mkSession b (Some pg), [await_content])) /\
  (forall b pg, fillForm [] (mkSession b (Some pg))
                = (Ok (mkFilledForm true []), mkSession b (Some pg), [])).
Proof.
  split; [reflexivity|]. split; [reflexivity|]. split; [|reflexivity].
  intros b pg e Hc. unfold getSnapshot, bind, require_page, get_page, await. simpl.
  now rewrite Hc.
Qed.

Lemma fill_succeeds b pg id v :
  page_locator pg (fill_selector (Js.trim id)) = None ->
  locator_fill pg (fill_locator (Js.trim id)) v 8000%N = None ->
  fill id v (mkSession b (Some pg))
  = (Ok (mkFilled true (Js.trim id) v), mkSession b (Some pg),
     [ await_fill (fill_locator (Js.trim id)) v 8000%N ]).
Proof.
  intros Hl Hf. unfold fill, bind, require_page, get_page. simpl. rewrite Hl. simpl.
  unfold bind, await_unit, await. now rewrite Hf.
Qed.

Lemma fill_fails b pg id v e :
  page_locator pg (fill_selector (Js.trim id)) = None ->
  locator_fill pg (fill_locator (Js.trim id)) v 8000%N = Some e ->
  fill id v (mkSession b (Some pg))
  = (Throw e, mkSession b (Some pg),
     [ await_fill (fill_locator (Js.trim id)) v 8000%N ]).
Proof.
  intros Hl Hf. unfold fill, bind, require_page, get_page. simpl. rewrite Hl. simpl.
  unfold bind, await_unit, await. now rewrite Hf.
Qed.

Lemma bind_Ok {A B} (m : SessionOp A) (k : A -> SessionOp B) s a s' t :
  m s = (Ok a, s', t) ->
  bind m k s = (let '(r, s'', t') := k a s' in (r, s'', t ++ t')).
Proof. intros H. unfold bind. now rewrite H. Qed.

Lemma bind_Throw {A B} (m : SessionOp A) (k : A -> SessionOp B) s e s' t :
  m s = (Throw e, s', t) -> bind m k s = (Throw e, s', t).
Proof. intros H. unfold bind. now rewrite H. Qed.

Lemma fillForm_loop_ok b pg fields :
  Forall (fillable pg) fields ->
  forall results,
    fillForm_loop fields results (mkSession b (Some pg))
    = (Ok (results ++ fields), mkSession b (Some pg), List.map fill_await fields).
Proof.
  induction 1 as [|[n v] r [Hl Hf] _ IH]; intros results; simpl.
  - now rewrite app_nil_r.
  - rewrite (bind_Ok _ _ _ _ _ _ (fill_succeeds b pg n v Hl Hf)).
    rewrite IH, <- app_assoc. reflexivity.
Qed.

Lemma fillForm_loop_abort b pg pre n v post e :
  Forall (fillable pg) pre ->
  page_locator pg (fill_selector (Js.trim n)) = None ->
  locator_fill pg (fill_locator (Js.trim n)) v 8000%N = Some e ->
  forall results,
    fillForm_loop (pre ++ (n, v) :: post) results (mkSession b (Some pg))
    = (Throw e, mkSession b (Some pg),
       List.map fill_await pre ++ [ fill_await (n, v) ]).
Proof.
  intros Hpre Hl Hf.
  induction Hpre as [|[n0 v0] r [Hl0 Hf0] _ IH]; intros results; simpl.
  - now rewrite (bind_Throw _ _ _ _ _ _ (fill_fails b pg n v e Hl Hf)).
  - rewrite (bind_Ok _ _ _ _ _ _ (fill_succeeds b pg n0 v0 Hl0 Hf0)).
    now rewrite IH.
Qed.

(** X15.  When the page lets every field be filled, [fillForm] fills the
    fields one after the other in the order given, reports them all, each
    under the name as given, and leaves the session as it was. *)
Theorem fillForm_fills_all (b : option BrowserHandle) (pg : PageHandle)
    (fields : list (string * string)) :
  Forall (fillable pg) fields ->
  fillForm fields (mkSession b (Some pg))
  = (Ok (mkFilledForm true fields), mkSession b (Some pg),
     List.map fill_await fields).
Proof.
  intros H. unfold fillForm.
  rewrite (bind_Ok require_page _ _ pg (mkSession b (Some pg)) []) by reflexivity.
  rewrite (bind_Ok _ _ _ _ _ _ (fillForm_loop_ok b pg fields H [])).
  simpl. now rewrite app_nil_r.
Qed.

(** The instance of the theorem above for two fields on a live page. *)
Lemma fillForm_fills_all_witness :
  fillForm [ ("search", "trekking shoes"); (" size ", "40") ]
    (mkSession None (Some (live_page [])))
  = (Ok (mkFilledForm true [ ("search", "trekking shoes"); (" size ", "40") ]),
     mkSession None (Some (live_page [])),
     [ await_fill (fill_locator "search") "trekking shoes" 8000%N;
       await_fill (fill_locator "size") "40" 8000%N ]).
Proof.
  apply (fillForm_fills_all None (live_page [])
           [ ("search", "trekking shoes"); (" size ", "40") ]).
  repeat constructor.
Defined.

(** X16.  When a fill fails, [fillForm] throws that error at once: the
    fields before it have been filled, the fields after it are not
    attempted, and nothing is reported about the fields already filled. *)
Theorem fillForm_stops_at_first_failure (b : option BrowserHandle) (pg : PageHandle)
    (pre post : list (string * string)) (n v : string) (e : JsError) :
  Forall (fillable pg) pre ->
  page_locator pg (fill_selector (Js.trim n)) = None ->
  locator_fill pg (fill_locator (Js.trim n)) v 8000%N = Some e ->
  fillForm (pre ++ (n, v) :: post) (mkSession b (Some pg))
  = (Throw e, mkSession b (Some pg),
     List.map fill_await pre ++ [ fill_await (n, v) ]).
Proof.
  intros Hpre Hl Hf. unfold fillForm.
  rewrite (bind_Ok require_page _ _ pg (mkSession b (Some pg)) []) by reflexivity.
  now rewrite (bind_Throw _ _ _ _ _ _
                 (fillForm_loop_abort b pg pre n v post e Hpre Hl Hf [])).
Qed.

(** The instance of the theorem above: the second of three fields is
    refused. *)
Lemma fillForm_stops_at_first_failure_witness :
  fillForm [ ("search", "shoes"); ("size", "XXL"); ("color", "black") ]
    (mkSession None (Some picky_page))
  = (Throw (mkError "TimeoutError" "locator.fill: Timeout exceeded."),
     mkSession None (Some picky_page),
     [ await_fill (fill_locator "search") "shoes" 8000%N;
       await_fill (fill_locator "size") "XXL" 8000%N ]).
Proof.
  apply (fillForm_stops_at_first_failure None picky_page
           [ ("search", "shoes") ] [ ("color", "black") ] "size" "XXL").
  - repeat constructor.
  - reflexivity.
  - reflexivity.
Defined.

(** X17.  A launch on a closed session that goes through sets [browser] and
    [page], after which [hasPage] holds; closing then brings the session back
    to the closed state, where [click] again throws the [Browser not
    launched] error. *)
Theorem launch_then_close (chromium : Chromium) (options : LaunchOptions)
    (br : BrowserHandle) (ctx : ContextHandle) (pg : PageHandle) :
  chromium_launch chromium (negb (headed options))
    (if headed options then [] else ["--no-sandbox"]) = Ok br ->
  newContext br = Ok ctx ->
  newPage ctx = Ok pg ->
  browser_close br = None ->
  launch chromium options (mkSession None None)
  = (Ok (mkMessage true (if headed options then "Browser opened (visible)"
                         else "Browser opened (headless)")),
     mkSession (Some br) (Some pg),
     [ await_launch (negb (headed options)); await_newContext; await_newPage ]) /\
  hasPage (mkSession (Some br) (Some pg)) = true /\
  close (mkSession (Some br) (Some pg))
  = (Ok (mkMessage true "Browser closed"), mkSession None None, [await_close]) /\
  forall d, click d (mkSession None None)
            = (Throw NOT_LAUNCHED, mkSession None None, []).
Proof.
  intros Hl Hc Hp Hclose. split; [|split; [reflexivity|split; [|reflexivity]]].
  - unfold launch, bind, get_browser, await. simpl. rewrite Hl. simpl.
    rewrite Hc. simpl. rewrite Hp. reflexivity.
  - unfold close, bind, get_browser, await_unit, await. simpl. now rewrite Hclose.
Qed.

(** The instance of the theorem above for a headed launch. *)
Lemma launch_then_close_witness :
  launch (good_chromium (live_page [])) (mkLaunchOptions true) (mkSession None None)
  = (Ok (mkMessage true "Browser opened (visible)"),
     mkSession (Some (good_browser (live_page []))) (Some (live_page [])),
     [ await_launch false; await_newContext; await_newPage ]) /\
  close (mkSession (Some (good_browser (live_page []))) (Some (live_page [])))
  = (Ok (mkMessage true "Browser closed"), mkSession None None, [await_close]).
Proof.
  destruct (launch_then_close (good_chromium (live_page [])) (mkLaunchOptions true)
              (good_browser (live_page [])) (mkContext (Ok (live_page [])))
              (live_page []) eq_refl eq_refl eq_refl eq_refl) as (H1 & _ & H2 & _).
  split; [exact H1 | exact H2].
Defined.

(** X18.  When the browser launches but its context (or its page) cannot be
    opened, [launch] throws that error and leaves [browser] set without a
    page.  From then on a new [launch] answers [Browser already open] without
    trying anything, while [hasPage] is false and [click] still throws the
    [Browser not launched] error. *)
Theorem launch_without_page_sticks (chromium : Chromium) (options : LaunchOptions)
    (br : BrowserHandle) (e : JsError) :
  chromium_launch chromium (negb (headed options))
    (if headed options then [] else ["--no-sandbox"]) = Ok br ->
  (newContext br = Throw e \/
   exists ctx, newContext br = Ok ctx /\ newPage ctx = Throw e) ->
  exists t,
    launch chromium options (mkSession None None)
      = (Throw e, mkSession (Some br) None, t) /\
    (forall options',
       launch chromium options' (mkSession (Some br) None)
       = (Ok (mkMessage true "Browser already open"), mkSession (Some br) None, [])) /\
    hasPage (mkSession (Some br) None) = false /\
    (forall d, click d (mkSession (Some br) None)
               = (Throw NOT_LAUNCHED, mkSession (Some br) None, [])).
Proof.
  intros Hl Hfail.
  assert (exists t, launch chromium options (mkSession None None)
                    = (Throw e, mkSession (Some br) None, t)) as [t Ht].
  { unfold launch, bind, get_browser, await. simpl. rewrite Hl. simpl.
    destruct Hfail as [Hc|(ctx & Hc & Hp)]; rewrite Hc; simpl; [eauto|].
    rewrite Hp. eauto. }
  exists t. repeat split; assumption || reflexivity.
Qed.

(** The instance of the theorem above for a browser without context. *)
Lemma launch_without_page_sticks_witness :
  exists t,
    launch contextless_chromium (mkLaunchOptions false) (mkSession None None)
      = (Throw (mkError "Error" "browser.newContext: Target closed"),
         mkSession (Some contextless_browser) None, t) /\
    (forall options',
       launch contextless_chromium options' (mkSession (Some contextless_browser) None)
       = (Ok (mkMessage true "Browser already open"),
          mkSession (Some contextless_browser) None, [])) /\
    hasPage (mkSession (Some contextless_browser) None) = false /\
    (forall d, click d (mkSession (Some contextless_browser) None)
               = (Throw NOT_LAUNCHED, mkSession (Some contextless_browser) None, [])).
Proof.
  apply (launch_without_page_sticks contextless_chromium (mkLaunchOptions false)
           contextless_browser); [reflexivity | left; reflexivity].
Defined.

(** X19.  With a page, [click] on a description that is missing, empty or
    blank throws [click: description or selector is required] before any
    locator is built or waited for. *)
Theorem click_needs_a_description (b : option BrowserHandle) (pg : PageHandle)
    (d : option string) :
  Js.trim (Js.or_default d "") = "" ->
  click d (mkSession b (Some pg))
  = (Throw (Error "click: description or selector is required"),
     mkSession b (Some pg), []).
Proof.
  intros H. unfold click, bind, require_page, get_page. simpl. now rewrite H.
Qed.

(** The instance of the theorem above for a description made of a space, a
    no-break space and an ideographic space. *)
Lemma click_needs_a_description_witness :
  Js.trim (Js.or_default (Some (" " +:+ nbsp +:+ ideographic_space)) "") = "" /\
  click (Some (" " +:+ nbsp +:+ ideographic_space))
    (mkSession None (Some (live_page [])))
  = (Throw (Error "click: description or selector is required"),
     mkSession None (Some (live_page [])), []).
Proof.
  split; [reflexivity|].
  apply (click_needs_a_description None (live_page [])
           (Some (" " +:+ nbsp +:+ ideographic_space))).
  reflexivity.
Defined.

(** X20.  When [browser.close()] throws, [close] throws that error and the
    session keeps its browser and its page: the variables are only reset
    after a close that went through. *)
Theorem failed_close_keeps_session (br : BrowserHandle) (p : option PageHandle)
    (e : JsError) :
  browser_close br = Some e ->
  close (mkSession (Some br) p) = (Throw e, mkSession (Some br) p, [await_close]).
Proof.
  intros H. unfold close, bind, get_browser, await_unit, await. simpl. now rewrite H.
Qed.

(** The instance of the theorem above for a browser that cannot be closed. *)
Lemma failed_close_keeps_session_witness :
  close (mkSession (Some stuck_browser) (Some (live_page [])))
  = (Throw (mkError "Error" "browser.close: Connection lost"),
     mkSession (Some stuck_browser) (Some (live_page [])), [await_close]).
Proof.
  apply (failed_close_keeps_session stuck_browser (Some (live_page []))). reflexivity.
Defined.

(** ** The contract with discovered APIs *)

Lemma name_chars_sanitize (s : string) : name_chars (sanitize s).
Proof.
  unfold name_chars.
  induction s as [|c s IH]; simpl; [reflexivity|].
  destruct (is_name_char c) eqn:E; [simpl; now rewrite E|].
  destruct (Js.is_cont c); [exact IH|].
  destruct (Js.units c =? 2)%nat; simpl; exact IH.
Qed.

Lemma apiActionName_parsed URL_pathname api (used : gset string) pathname :
  URL_pathname (api_url api) = Some pathname ->
  exists name,
    apiActionName URL_pathname api used = Some (name, {[ name ]} ∪ used) /\
    (name ∉ used) /\ name_chars name.
Proof.
  intros Hp. unfold apiActionName. rewrite Hp.
  destruct (ensureUnique_total (api_slug pathname (api_method api)) used) as [name H].
  exists name. split; [exact H|].
  apply ensureUnique_spec in H as (_ & Hfree & Hshape). split; [assumption|].
  destruct Hshape as [->|(k & _ & ->)].
  - apply name_chars_sanitize.
  - apply name_chars_candidate, name_chars_sanitize.
Qed.

(** X21.  For a discovered API whose url parses, [apiActionName] returns a
    name that was not in use, made of the characters [a-z], [0-9] and [_]
    only, and adds it to the names in use. *)
Theorem apiActionName_fresh (URL_pathname : string -> option string)
    (api : DiscoveredApi) (used : gset string) (pathname : string) :
  URL_pathname (api_url api) = Some pathname ->
  exists name,
    apiActionName URL_pathname api used = Some (name, {[ name ]} ∪ used) /\
    (name ∉ used) /\ name_chars name.
Proof. apply apiActionName_parsed. Qed.

(** The instance of the theorem above for the search API, whose plain name is
    taken. *)
Lemma apiActionName_fresh_witness :
  exists name,
    apiActionName known_pathname search_api {[ "post_api_search" ]}
      = Some (name, {[ name ]} ∪ {[ "post_api_search" ]}) /\
    (name ∉ ({[ "post_api_search" ]} : gset string)) /\ name_chars name.
Proof.
  apply (apiActionName_fresh known_pathname search_api {[ "post_api_search" ]}
           "/api/search").
  reflexivity.
Defined.

Example apiActionName_example :
  fst <$> apiActionName known_pathname search_api {[ "post_api_search" ]}
    = Some "post_api_search_2" /\
  fst <$> apiActionName known_pathname
            (mkApi "GET" "not a url" None None None) {[ "a"; "b" ]}
    = Some "api_3".
Proof. split; vm_compute; reflexivity. Qed.

Lemma apiActionName_total URL_pathname api (used : gset string) :
  exists name, apiActionName URL_pathname api used = Some (name, {[ name ]} ∪ used).
Proof.
  unfold apiActionName. destruct (URL_pathname (api_url api)) as [pathname|]; [|eauto].
  apply ensureUnique_total.
Qed.

Lemma endpoints_loop_shape URL_pathname apis : forall st,
  exists st' added,
    endpoints_loop URL_pathname apis st = Some st' /\
    fst st' = fst st ++ added /\
    List.map endpoint_data added = List.map discovered_data apis.
Proof.
  induction apis as [|api r IH]; intros st; simpl.
  - exists st, []. now rewrite app_nil_r.
  - destruct (apiActionName_total URL_pathname api (snd st)) as [name ->].
    destruct (IH (fst st ++
                    [ mkEndpoint name (api_method api) (api_url api) (bodySchema api)
                        ("Real API: " +:+ api_method api +:+ " " +:+ api_url api) ],
                  {[ name ]} ∪ snd st)) as (st' & added & H & Hacc & Hdata).
    exists st'. eexists (_ :: added). split; [exact H|]. simpl in Hacc.
    split; [rewrite Hacc, <- app_assoc; reflexivity|].
    simpl. now rewrite Hdata.
Qed.

Lemma used_after_forms acts : forall (X : gset string),
  fold_left (fun used a => {[ action a ]} ∪ used) acts X
    = list_to_set (List.map action acts) ∪ X.
Proof.
  induction acts as [|a r IH]; intros X; simpl.
  - now rewrite union_empty_l_L.
  - rewrite IH. apply set_eq. intros x.
    rewrite !elem_of_union, elem_of_singleton. tauto.
Qed.

(** The variant reaches the loop over the discovered APIs in the state in
    which [contractGenerator.js] ends. *)
Lemma generateContract_apis_unfold URL_pathname html options :
  exists st st',
    before_links (extractInteractiveGroups (parseDOM html)) = Some st /\
    links_loop (links (extractInteractiveGroups (parseDOM html))) st = Some st' /\
    generateContract html (mkOptions (api_context options))
      = Some (mkContract (inferContractName (parseDOM html) (api_context options))
                (fst st')) /\
    generateContract_apis URL_pathname html options
      = match endpoints_loop URL_pathname (discovered_list options) ([], snd st') with
        | None => None
        | Some (eps, _) =>
            Some (mkApiContract
                    (inferContractName (parseDOM html) (api_context options))
                    (fst st') (match eps with [] => None | _ => Some eps end))
        end.
Proof.
  destruct (before_links_total (extractInteractiveGroups (parseDOM html))) as [st Hb].
  destruct (links_loop_total (links (extractInteractiveGroups (parseDOM html))) st)
    as [st' Hl].
  exists st, st'. split; [exact Hb|]. split; [exact Hl|]. split.
  - unfold generateContract, synthesize. simpl in *. now rewrite Hb, Hl.
  - unfold generateContract_apis. rewrite used_after_forms, union_empty_r_L.
    unfold before_links in Hb. rewrite Hb, Hl. reflexivity.
Qed.

(** X22.  Handing discovered APIs to [generateContract] changes neither the
    contract name nor the actions: they are those [contractGenerator.js]
    computes for the same page and context. *)
Theorem discovered_apis_leave_actions (URL_pathname : string -> option string)
    (html : Dom) (options : ApiOptions) :
  exists c c',
    generateContract html (mkOptions (api_context options)) = Some c /\
    generateContract_apis URL_pathname html options = Some c' /\
    api_contractName c' = contractName c /\
    api_actions c' = actions c.
Proof.
  destruct (generateContract_apis_unfold URL_pathname html options)
    as (st & st' & _ & _ & Hc & Hc').
  destruct (endpoints_loop_shape URL_pathname (discovered_list options) ([], snd st'))
    as ([eps used] & added & He & _ & _).
  rewrite He in Hc'. eexists _, _. split; [exact Hc|]. split; [exact Hc'|].
  split; reflexivity.
Qed.

(** X23.  The contract lists one endpoint per discovered API, in the order
    given, with the method, the url and the body schema of the discovered
    record; the [apiEndpoints] key is absent exactly when there is no
    discovered API. *)
Theorem endpoints_follow_discovered (URL_pathname : string -> option string)
    (html : Dom) (options : ApiOptions) :
  exists c',
    generateContract_apis URL_pathname html options = Some c' /\
    List.map endpoint_data (endpoint_list c')
      = List.map discovered_data (discovered_list options) /\
    (apiEndpoints c' = None <-> discovered_list options = []).
Proof.
  destruct (generateContract_apis_unfold URL_pathname html options)
    as (st & st' & _ & _ & _ & Hc').
  destruct (endpoints_loop_shape URL_pathname (discovered_list options) ([], snd st'))
    as ([eps used] & added & He & Hacc & Hdata).
  rewrite He in Hc'. simpl in Hacc. subst eps.
  eexists. split; [exact Hc'|]. unfold endpoint_list. simpl.
  destruct added as [|e added].
  - simpl in *. split; [assumption|]. split; [|reflexivity].
    intros _. destruct (discovered_list options); [reflexivity | discriminate].
  - split; [assumption|]. split; [discriminate|].
    intros H. rewrite H in Hdata. discriminate.
Qed.

Lemma endpoints_loop_fresh URL_pathname apis :
  Forall (fun d => URL_pathname (api_url d) <> None) apis ->
  forall st st',
    endpoints_loop URL_pathname apis st = Some st' ->
    NoDup (List.map ep_action (fst st)) ->
    (forall x, x ∈ List.map ep_action (fst st) -> x ∈ snd st) ->
    NoDup (List.map ep_action (fst st')) /\
    (forall x, x ∈ snd st -> x ∈ snd st') /\
    (forall x, x ∈ List.map ep_action (fst st') ->
               x ∈ List.map ep_action (fst st) \/ x ∉ snd st).
Proof.
  induction 1 as [|api r Hp _ IH]; intros st st'; simpl.
  - intros [= <-] Hnd Hin. auto.
  - destruct (URL_pathname (api_url api)) as [pathname|] eqn:E; [|contradiction].
    destruct (apiActionName_parsed URL_pathname api (snd st) pathname E)
      as (name & -> & Hfree & _).
    intros H Hnd Hin.
    apply IH in H as (Hnd' & Hmono & Hnew); simpl.
    + split; [assumption|]. split.
      * intros x Hx. apply Hmono. simpl. now apply elem_of_union_r.
      * intros x Hx. destruct (Hnew x Hx) as [Hold|Hout].
        -- simpl in Hold. rewrite List.map_app in Hold.
           apply elem_of_app in Hold as [Hold|Hold]; [now left|].
           simpl in Hold. apply list_elem_of_singleton in Hold as ->. now right.
        -- right. intros Hx'. apply Hout. simpl. now apply elem_of_union_r.
    + rewrite List.map_app. apply NoDup_app. split; [assumption|].
      split; [|apply NoDup_singleton]. simpl.
      intros x Hx. rewrite list_elem_of_singleton. intros ->. now apply Hfree, Hin.
    + intros x. rewrite List.map_app, elem_of_app. simpl.
      rewrite list_elem_of_singleton, elem_of_union, elem_of_singleton.
      intros [Hx| ->]; [right; now apply Hin | now left].
Qed.

(** X24.  When every discovered url parses, the names of the endpoints are
    pairwise different and none of them is the name of an action of the
    contract. *)
Theorem endpoint_names_unique (URL_pathname : string -> option string)
    (html : Dom) (options : ApiOptions) :
  Forall (fun d => URL_pathname (api_url d) <> None) (discovered_list options) ->
  exists c',
    generateContract_apis URL_pathname html options = Some c' /\
    NoDup (List.map ep_action (endpoint_list c')) /\
    forall x, x ∈ List.map ep_action (endpoint_list c') -> x ∉ names (api_actions c').
Proof.
  intros Hparse.
  destruct (generateContract_apis_unfold URL_pathname html options)
    as (st & st' & Hb & Hst & _ & Hc').
  destruct (endpoints_loop_shape URL_pathname (discovered_list options) ([], snd st'))
    as ([eps used] & added & He & _ & _).
  rewrite He in Hc'.
  destruct (endpoints_loop_fresh URL_pathname _ Hparse _ _ He) as (Hnd & _ & Hnew);
    [apply NoDup_nil_2 | intros x Hx; inversion Hx |].
  assert (forall x, x ∈ snd st' <-> x ∈ names (fst st')) as Hused.
  { apply links_loop_pushes in Hst.
    apply (inv_used _ _ (pushes_inv _ _ _ Hst (before_links_inv _ _ Hb))). }
  eexists. split; [exact Hc'|]. unfold endpoint_list. simpl in *.
  destruct eps as [|e eps]; simpl.
  - split; [apply NoDup_nil_2|]. intros x Hx. inversion Hx.
  - split; [assumption|]. intros x Hx.
    destruct (Hnew x Hx) as [Hin|Hout]; [inversion Hin|].
    now rewrite <- Hused.
Qed.

(** The instance of the theorem above: the search API discovered twice over
    on the page with the [Join] form. *)
Lemma endpoint_names_unique_witness :
  exists c',
    generateContract_apis known_pathname join_form
      (mkApiOptions None (Some [search_api; search_api])) = Some c' /\
    NoDup (List.map ep_action (endpoint_list c')) /\
    forall x, x ∈ List.map ep_action (endpoint_list c') -> x ∉ names (api_actions c').
Proof.
  apply (endpoint_names_unique known_pathname join_form
           (mkApiOptions None (Some [search_api; search_api]))).
  repeat constructor; discriminate.
Defined.

Example endpoint_names_example :
  (fun c => (names (api_actions c), List.map ep_action (endpoint_list c)))
    <$> generateContract_apis known_pathname join_form
          (mkApiOptions None (Some [search_api; search_api]))
  = Some (["join"], ["post_api_search"; "post_api_search_2"]).
Proof. vm_compute. reflexivity. Qed.

(** ** fetcher.js: the browser is closed, the fallback is HTTP *)

(** X25.  [fetchHtmlWithChromium] launches Chromium once when asked to use
    it and never otherwise, and a browser that was launched is closed exactly
    once, whatever fails afterwards. *)
Theorem fetch_closes_browser (w : FetchWorld) (url : string) (useChromium : bool) :
  times step_launch (snd (fetchHtmlWithChromium w url useChromium))
    = (if useChromium then 1 else 0) /\
  times step_close (snd (fetchHtmlWithChromium w url useChromium))
    = (if useChromium then (match fw_launch w with None => 1 | Some _ => 0 end)
       else 0).
Proof.
  destruct w as [l np g c cl f tx].
  unfold fetchHtmlWithChromium, chromium_attempt, chromium_page, http_fallback.
  simpl.
  destruct useChromium, l, np, g, c, cl, f as [[[] status]|], tx; split; reflexivity.
Qed.

(** X26.  With Chromium, the result is Chromium's markup when every step of
    it went through, and then no HTTP request is made; in every other case
    the error of Chromium is dropped and the result is that of the plain HTTP
    GET, which for a response that is not ok is the error
    [HTTP <status>: <url>]. *)
Theorem fetch_falls_back_to_http (w : FetchWorld) (url : string) :
  fst (fetchHtmlWithChromium w url true)
    = match chromium_succeeds w with
      | Some markup => Ok markup
      | None => fst (http_fallback w url)
      end /\
  (chromium_succeeds w <> None ->
   times step_http_get (snd (fetchHtmlWithChromium w url true)) = 0) /\
  fetchHtmlWithChromium w url false = http_fallback w url /\
  (forall status, fw_fetch w = Ok (false, status) ->
     fst (http_fallback w url)
       = Throw (Error ("HTTP " +:+ Js.of_nat status +:+ ": " +:+ url))).
Proof.
  destruct w as [l np g c cl f tx].
  unfold fetchHtmlWithChromium, chromium_attempt, chromium_page, http_fallback,
    chromium_succeeds.
  simpl. repeat split.
  - destruct l, np, g, c, cl, f as [[[] status]|], tx; reflexivity.
  - destruct l, np, g, c, cl; intros H; try (now elim H); reflexivity.
  - intros status ->. reflexivity.
Qed.

Example fetch_offline :
  fetchHtmlWithChromium offline_world "https://shop.example/" true
  = (Throw (Error "HTTP 404: https://shop.example/"), [ step_launch; step_http_get ]).
Proof. reflexivity. Qed.

(** ** cli.js: reading the command line *)

Lemma filter_head_find {A} (f : A -> bool) (l : list A) :
  match List.filter f l with [] => None | x :: _ => Some x end = List.find f l.
Proof.
  induction l as [|x l IH]; simpl; [reflexivity|].
  destruct (f x); [reflexivity | exact IH].
Qed.

Lemma find_none_flags args :
  List.find (fun a => negb (Cli.is_flag a)) args = None ->
  match args with u :: _ => Cli.is_flag u = true | [] => True end.
Proof.
  destruct args as [|a args]; simpl; [trivial|].
  destruct (Cli.is_flag a); [reflexivity | discriminate].
Qed.

(** X27.  Started as [node cli.js args] without [--mcp] and without an html
    path, the command line names as url the first argument that is not a
    flag, wherever the flags stand; with no such argument, or an empty one,
    [main] prints the usage. *)
Theorem cli_url_is_first_plain_argument (node script : string) (args : list string) :
  Cli.is_flag node = false ->
  Cli.is_flag script = false ->
  Cli.runMcp (node :: script :: args) = false ->
  Cli.htmlPath (node :: script :: args) = None ->
  Cli.main (node :: script :: args)
  = match List.find (fun a => negb (Cli.is_flag a)) args with
    | Some u =>
        if Js.is_empty u then Cli.usage
        else Cli.contract_from_url u
               (Cli.context (node :: script :: args))
               (Cli.useChromium (node :: script :: args))
               (Cli.discoverApis (node :: script :: args))
               (Cli.writeContract (node :: script :: args))
    | None => Cli.usage
    end.
Proof.
  intros Hn Hs Hmcp Hhtml. unfold Cli.main. rewrite Hmcp, Hhtml.
  unfold Cli.from_url, Cli.url.
  cbn [List.filter]. rewrite Hn, Hs. cbn [negb nth_error].
  rewrite filter_head_find.
  destruct (List.find (fun a => negb (Cli.is_flag a)) args) as [u|] eqn:E.
  - apply find_some in E as [_ Hu]. apply negb_true_iff in Hu. rewrite Hu.
    now rewrite orb_false_r.
  - apply find_none_flags in E. destruct args as [|u args]; [reflexivity|].
    rewrite E. now rewrite orb_true_r.
Qed.

(** The instance of the theorem above with flags on both sides of the url. *)
Lemma cli_url_is_first_plain_argument_witness :
  Cli.main [ "node"; "cli.js"; "--context=shop"; "https://example.com";
             "--discover-apis" ]
  = Cli.contract_from_url "https://example.com" (Some "shop") true true
      Cli.to_stdout.
Proof.
  apply (cli_url_is_first_plain_argument "node" "cli.js"
           [ "--context=shop"; "https://example.com"; "--discover-apis" ]);
    reflexivity.
Defined.

Lemma startsWith_app (p v : string) : Js.startsWith p (p +:+ v) = true.
Proof.
  induction p as [|c p IH]; rewrite ?app_String_l; simpl; [reflexivity|].
  destruct (ascii_dec c c); [exact IH | congruence].
Qed.

Lemma drop_app (p v : string) : Js.drop (String.length p) (p +:+ v) = v.
Proof.
  induction p as [|c p IH]; rewrite ?app_String_l, ?app_empty_l; simpl;
    [now destruct v | exact IH].
Qed.

Lemma find_skips {A} (f : A -> bool) (pre : list A) (x : A) (post : list A) :
  Forall (fun a => f a = false) pre -> f x = true ->
  List.find f (pre ++ x :: post) = Some x.
Proof.
  induction 1 as [|a pre Ha _ IH]; intros Hx; simpl; [now rewrite Hx|].
  rewrite Ha. now apply IH.
Qed.

(** X28.  The value of an option [--name=value] is what follows the prefix
    in the first argument that starts with it; arguments before it that do
    not start with the prefix, and anything after it, make no difference. *)
Theorem cli_option_value (prefix v : string) (pre post : list string) :
  prefix <> "" ->
  Forall (fun a => Js.startsWith prefix a = false) pre ->
  Cli.value_of prefix (pre ++ (prefix +:+ v) :: post) = Some v.
Proof.
  intros Hp Hpre. unfold Cli.value_of.
  rewrite (find_skips _ pre (prefix +:+ v) post Hpre (startsWith_app prefix v)).
  rewrite drop_app.
  destruct prefix as [|c p]; [congruence|]. reflexivity.
Qed.

(** The instance of the theorem above for [--output=]. *)
Lemma cli_option_value_witness :
  Cli.outputPath [ "node"; "cli.js"; "https://example.com"; "--output=a.json";
                   "--output=b.json" ]
  = Some "a.json".
Proof.
  apply (cli_option_value "--output=" "a.json"
           [ "node"; "cli.js"; "https://example.com" ] [ "--output=b.json" ]).
  - discriminate.
  - repeat constructor.
Defined.

(** ** agent.js: the agent loop *)

Lemma call_tools_chats w tcs : forall msgs eff,
  Agent.chats (snd (Agent.call_tools w tcs msgs eff)) = Agent.chats eff.
Proof.
  induction tcs as [|tc r IH]; intros msgs eff; simpl; [reflexivity|].
  destruct (Agent.callTool w _ _); [|reflexivity]. now rewrite IH.
Qed.

Lemma agent_loop_chats w n : forall msgs eff,
  Agent.chats (snd (Agent.agent_loop w n msgs eff)) <= Agent.chats eff + n.
Proof.
  induction n as [|n IH]; intros msgs eff; cbn -[Agent.call_tools]; [lia|].
  destruct (Agent.openRouterChat w msgs) as [[msg|]|e]; cbn -[Agent.call_tools];
    try lia.
  destruct (Agent.reply_tool_calls msg) as [[|tc tcs]|]; cbn -[Agent.call_tools];
    try lia.
  match goal with
  | |- context [Agent.call_tools w ?l ?m ?f] =>
      pose proof (call_tools_chats w l m f) as Hc;
      destruct (Agent.call_tools w l m f) as [[msgs2|e] eff2]
  end; cbn -[Agent.call_tools] in Hc |- *.
  - specialize (IH msgs2 eff2). lia.
  - lia.
Qed.

(** X29.  Whatever the model and the tools answer, one run of the agent
    loop asks the model for at most 15 completions. *)
Theorem agent_asks_at_most_15_times (w : Agent.World)
    (messages : list Agent.ChatMessage) :
  Agent.chats (snd (Agent.runAgentTurn w messages)) <= 15.
Proof. apply (agent_loop_chats w Agent.maxTurns messages (Agent.mkEffects 0 [])). Qed.

Example agent_loop_attains_the_bound :
  Agent.runAgentTurn looping_world []
  = (Ok "(Max turns reached)",
     Agent.mkEffects 15 (repeat (Some "browser_snapshot", JObject []) 15)).
Proof. vm_compute. reflexivity. Qed.

Lemma agent_loop_reply w n : forall msgs eff s,
  fst (Agent.agent_loop w n msgs eff) = Ok s -> s <> "".
Proof.
  induction n as [|n IH]; intros msgs eff s; cbn -[Agent.call_tools].
  - intros [= <-]. discriminate.
  - destruct (Agent.openRouterChat w msgs) as [[msg|]|e]; cbn -[Agent.call_tools];
      try discriminate.
    assert (forall text,
              Ok (if negb (Js.is_empty text) then text else Agent.NO_FINAL_REPLY)
                = Ok s -> s <> "") as Hfinal.
    { intros text. destruct (Js.is_empty text) eqn:E; simpl; intros [= <-];
        [discriminate | now apply is_empty_false]. }
    destruct (Agent.reply_tool_calls msg) as [[|tc tcs]|]; cbn -[Agent.call_tools];
      try apply Hfinal.
    match goal with
    | |- context [Agent.call_tools w ?l ?m ?f] =>
        destruct (Agent.call_tools w l m f) as [[msgs2|e] eff2]
    end; cbn -[Agent.call_tools]; [apply IH | discriminate].
Qed.

(** X30.  A reply that the agent loop returns is never the empty text: it is
    the model's trimmed answer, or a fixed message when the model sent no
    text or the turns ran out. *)
Theorem agent_reply_not_empty (w : Agent.World) (messages : list Agent.ChatMessage)
    (reply : string) :
  fst (Agent.runAgentTurn w messages) = Ok reply -> reply <> "".
Proof. apply agent_loop_reply. Qed.

(** The instance of the theorem above for a model that answers at once. *)
Lemma agent_reply_not_empty_witness :
  Agent.runAgentTurn answering_world [] = (Ok "Done.", Agent.mkEffects 1 []) /\
  "Done." <> "".
Proof.
  split; [reflexivity|].
  apply (agent_reply_not_empty answering_world [] "Done."). reflexivity.
Defined.
